(** * hotk: stroke detection, subaction contexts and root recovery

    A shallow embedding of [src/index.ts] of the [@hotk/hotk] package: the
    [HotKey] builder, the [manager] object with its module-level state
    ([globals], [locals], [root], [timeoutRecoverRoot]) and the two static
    fields of the stroke detector ([HotKey.lastHotKey], [HotKey.lastFire]).

    The native core ([@hotk/core]) and the callbacks given to [action] are
    not part of the package; they are interfaces here ([HotkCore],
    [UserCode]) and the statements quantify over their implementations.

    Conventions: a JavaScript call is a state transformer that returns or
    throws ([Eff]); the reading of [Date.now()] is an argument of [fire]
    and [handleEvent]; identities are natural numbers, the keys of the two
    scope objects; a [HotKey] is a record of its fields with a tag for
    its identity as an object. *)

From stdpp Require Import gmap strings list sorting.
From Stdlib Require Import ZArith Lia.

Set Warnings "-register-all".
Open Scope Z_scope.

(** ** JavaScript numbers

    Timeouts have the TypeScript type [number].  Finite values are
    millisecond counts and are kept as integers; the three special values
    are kept apart because [isNaN], [Math.min] and [<=] treat them
    differently. *)

Inductive number : Type :=
  | Fin (z : Z)
  | PosInfinity
  | NegInfinity
  | NaN.

Definition isNaN (x : number) : bool :=
  match x with NaN => true | _ => false end.

Definition isFinite (x : number) : bool :=
  match x with Fin _ => true | _ => false end.

(** [Math.min(a, b)]. *)
Definition Math_min (a b : number) : number :=
  match a, b with
  | NaN, _ | _, NaN => NaN
  | NegInfinity, _ | _, NegInfinity => NegInfinity
  | PosInfinity, y => y
  | x, PosInfinity => x
  | Fin x, Fin y => Fin (Z.min x y)
  end.

(** [elapsed <= timeout] where [elapsed] is a difference of two
    timestamps (always a finite integer). *)
Definition number_le (elapsed : Z) (timeout : number) : bool :=
  match timeout with
  | Fin t => elapsed <=? t
  | PosInfinity => true
  | NegInfinity => false
  | NaN => false
  end.

(** [new Date(-8640000000000000).getTime()], the earliest representable
    date: the value of [HotKey.lastFire] when no first stroke is pending. *)
Definition never : Z := -8640000000000000.

(** The largest delay [setTimeout] honours. *)
Definition TIMEOUT_MAX : Z := 2147483647.

(** ** Hotkey definitions *)

Inductive Stroke : Type := Single | Double.

(** [Mod] and [KeyCode] are enums of the native core; their members are
    referred to by name ([Mods.Control], [KeyCodes.KeyA]). *)
Definition Mod : Type := string.
Definition KeyCode : Type := string.

(** The callback stored by [action]: the default [() => { }] or the k-th
    function supplied by the application. *)
Inductive Action : Type :=
  | Noop
  | Callback (k : nat).

(** A [HotKey] object.  [oid] stands for the object's identity (what [===]
    compares); the other fields are those of the class. *)
Inductive HotKey : Type := mkHotKey {
  oid : nat;
  mods : list Mod;
  code : KeyCode;
  _description : option string;
  _stroke : Stroke;
  _strokeTimeout : number;
  _action : Action;
  _subactions : list HotKey;
  _subactionsTimeout : number;
  _backToRoot : bool;
  _global : bool
}.

(** [a === b] on [HotKey] references. *)
Definition same_object (a b : HotKey) : bool := Nat.eqb (oid a) (oid b).

(** [new HotKey(mods, code)] allocated at identity [o]. *)
Definition hotKey (o : nat) (ms : list Mod) (keyCode : KeyCode) : HotKey :=
  {| oid := o; mods := ms; code := keyCode;
     _description := None;
     _stroke := Single;
     _strokeTimeout := Fin 1000;
     _action := Noop;
     _subactions := [];
     _subactionsTimeout := Fin 1000;
     _backToRoot := true;
     _global := false |}.

(** ** Completions and the effect monad

    A JavaScript call either returns or throws; the state changes made
    before a [throw] stay. *)

Inductive Completion (A : Type) : Type :=
  | Normal (a : A)
  | Thrown (e : string).
Arguments Normal {A} a.
Arguments Thrown {A} e.

Definition Eff (S A : Type) : Type := S -> Completion A * S.

Definition ret {S A} (a : A) : Eff S A := fun s => (Normal a, s).

Definition throw {S A} (e : string) : Eff S A := fun s => (Thrown e, s).

Definition bind {S A B} (c : Eff S A) (k : A -> Eff S B) : Eff S B :=
  fun s =>
    match c s with
    | (Normal a, s') => k a s'
    | (Thrown e, s') => (Thrown e, s')
    end.

Definition get {S} : Eff S S := fun s => (Normal s, s).

Definition modify {S} (f : S -> S) : Eff S unit := fun s => (Normal tt, f s).

Declare Scope eff_scope.
Delimit Scope eff_scope with eff.
Notation "'let!' x ':=' c 'in' k" := (bind c (fun x => k))
  (at level 10, x name, c at level 100, k at level 200) : eff_scope.
Notation "c '>>>' k" := (bind c (fun _ => k))
  (at level 65, right associativity) : eff_scope.
Open Scope eff_scope.

(** [for (const x of xs) f(x)]: stops at the first throw. *)
Fixpoint for_of {S A} (xs : list A) (f : A -> Eff S unit) : Eff S unit :=
  match xs with
  | [] => ret tt
  | x :: rest => f x >>> for_of rest f
  end.

(** The builder methods.  Each returns [this], here the updated object. *)
Module Builder.

Definition description (d : string) (this : HotKey) : HotKey :=
  {| oid := oid this; mods := mods this; code := code this;
     _description := Some d;
     _stroke := _stroke this;
     _strokeTimeout := _strokeTimeout this;
     _action := _action this;
     _subactions := _subactions this;
     _subactionsTimeout := _subactionsTimeout this;
     _backToRoot := _backToRoot this;
     _global := _global this |}.

Definition stroke (s : Stroke) (this : HotKey) : HotKey :=
  {| oid := oid this; mods := mods this; code := code this;
     _description := _description this;
     _stroke := s;
     _strokeTimeout := _strokeTimeout this;
     _action := _action this;
     _subactions := _subactions this;
     _subactionsTimeout := _subactionsTimeout this;
     _backToRoot := _backToRoot this;
     _global := _global this |}.

Definition strokeTimeout (timeout : number) (this : HotKey) : HotKey :=
  {| oid := oid this; mods := mods this; code := code this;
     _description := _description this;
     _stroke := _stroke this;
     _strokeTimeout := timeout;
     _action := _action this;
     _subactions := _subactions this;
     _subactionsTimeout := _subactionsTimeout this;
     _backToRoot := _backToRoot this;
     _global := _global this |}.

Definition action (a : Action) (this : HotKey) : HotKey :=
  {| oid := oid this; mods := mods this; code := code this;
     _description := _description this;
     _stroke := _stroke this;
     _strokeTimeout := _strokeTimeout this;
     _action := a;
     _subactions := _subactions this;
     _subactionsTimeout := _subactionsTimeout this;
     _backToRoot := _backToRoot this;
     _global := _global this |}.

Definition set_subactions (l : list HotKey) (this : HotKey) : HotKey :=
  {| oid := oid this; mods := mods this; code := code this;
     _description := _description this;
     _stroke := _stroke this;
     _strokeTimeout := _strokeTimeout this;
     _action := _action this;
     _subactions := l;
     _subactionsTimeout := _subactionsTimeout this;
     _backToRoot := _backToRoot this;
     _global := _global this |}.

(** [subaction]: throws on a global hotkey, otherwise pushes. *)
Definition subaction (sub : HotKey) (this : HotKey) : Completion HotKey :=
  if _global this
  then Thrown "Subactions are not supported for global hotkeys"
  else Normal (set_subactions (_subactions this ++ [sub]) this).

(** [subactions]: throws on a global hotkey, otherwise replaces. *)
Definition subactions (subs : list HotKey) (this : HotKey)
  : Completion HotKey :=
  if _global this
  then Thrown "Subactions are not supported for global hotkeys"
  else Normal (set_subactions subs this).

Definition subactionsTimeout (timeout : number) (this : HotKey) : HotKey :=
  {| oid := oid this; mods := mods this; code := code this;
     _description := _description this;
     _stroke := _stroke this;
     _strokeTimeout := _strokeTimeout this;
     _action := _action this;
     _subactions := _subactions this;
     _subactionsTimeout := timeout;
     _backToRoot := _backToRoot this;
     _global := _global this |}.

Definition backToRoot (value : bool) (this : HotKey) : HotKey :=
  {| oid := oid this; mods := mods this; code := code this;
     _description := _description this;
     _stroke := _stroke this;
     _strokeTimeout := _strokeTimeout this;
     _action := _action this;
     _subactions := _subactions this;
     _subactionsTimeout := _subactionsTimeout this;
     _backToRoot := value;
     _global := _global this |}.

(** [global]: sets the flag and empties the subaction list. *)
Definition global (value : bool) (this : HotKey) : HotKey :=
  {| oid := oid this; mods := mods this; code := code this;
     _description := _description this;
     _stroke := _stroke this;
     _strokeTimeout := _strokeTimeout this;
     _action := _action this;
     _subactions := [];
     _subactionsTimeout := _subactionsTimeout this;
     _backToRoot := _backToRoot this;
     _global := value |}.

End Builder.

(** ** The native core

    [innerManager.register(mods, code)] and [unregister] return a result
    with [isOk()] and [id].  What the core answers may depend on everything
    it was asked before, so an implementation is a function of the history
    of calls. *)

Inductive NativeCall : Type :=
  | NRegister (ms : list Mod) (c : KeyCode)
  | NUnregister (ms : list Mod) (c : KeyCode).

Record NativeResult : Type := mkResult {
  isOk : bool;
  result_id : N
}.

Class HotkCore : Type := {
  getHotkeyId : KeyCode -> list Mod -> N;
  innerRegister : list NativeCall -> list Mod -> KeyCode -> NativeResult;
  innerUnregister : list NativeCall -> list Mod -> KeyCode -> NativeResult
}.

(** The readonly field [id], set in the constructor to
    [getHotkeyId(code, mods)]. *)
Definition id_of `{HotkCore} (h : HotKey) : N :=
  getHotkeyId (code h) (mods h).

(** ** Manager state

    The four module-level variables, the timers of the event loop that are
    still outstanding (handle and delay), the next free handle, and the
    calls made to the native core so far (oldest first). *)

Record Manager : Type := mkManager {
  globals : gmap N HotKey;
  locals : gmap N HotKey;
  root : option (list HotKey);
  timeoutRecoverRoot : option nat;
  timers : list (nat * number);
  next_timer : nat;
  native_log : list NativeCall
}.

Definition set_globals (g : gmap N HotKey) (m : Manager) : Manager :=
  {| globals := g; locals := locals m; root := root m;
     timeoutRecoverRoot := timeoutRecoverRoot m;
     timers := timers m; next_timer := next_timer m;
     native_log := native_log m |}.

Definition set_locals (l : gmap N HotKey) (m : Manager) : Manager :=
  {| globals := globals m; locals := l; root := root m;
     timeoutRecoverRoot := timeoutRecoverRoot m;
     timers := timers m; next_timer := next_timer m;
     native_log := native_log m |}.

Definition set_root (r : option (list HotKey)) (m : Manager) : Manager :=
  {| globals := globals m; locals := locals m; root := r;
     timeoutRecoverRoot := timeoutRecoverRoot m;
     timers := timers m; next_timer := next_timer m;
     native_log := native_log m |}.

Definition set_timeoutRecoverRoot (t : option nat) (m : Manager) : Manager :=
  {| globals := globals m; locals := locals m; root := root m;
     timeoutRecoverRoot := t;
     timers := timers m; next_timer := next_timer m;
     native_log := native_log m |}.

Definition set_timers (ts : list (nat * number)) (nxt : nat) (m : Manager)
  : Manager :=
  {| globals := globals m; locals := locals m; root := root m;
     timeoutRecoverRoot := timeoutRecoverRoot m;
     timers := ts; next_timer := nxt;
     native_log := native_log m |}.

Definition log_native (c : NativeCall) (m : Manager) : Manager :=
  {| globals := globals m; locals := locals m; root := root m;
     timeoutRecoverRoot := timeoutRecoverRoot m;
     timers := timers m; next_timer := next_timer m;
     native_log := native_log m ++ [c] |}.

(** The state right after the module is loaded. *)
Definition initial_manager : Manager :=
  {| globals := ∅; locals := ∅; root := None;
     timeoutRecoverRoot := None;
     timers := []; next_timer := 0%nat;
     native_log := [] |}.

(** The callbacks of the application.  A callback may use the manager
    (the escape hatch [manager.recoverRoot()] is meant to be called from
    one) and may throw; it is otherwise unknown, except that it does not
    call back into the dispatcher ([handleEvent], [fire]). *)
Class UserCode : Type := {
  callback : nat -> Eff Manager unit
}.

(** ** Timers of the event loop *)

(** [setTimeout(cb, delay)]: a fresh handle, remembered as outstanding. *)
Definition setTimeout (delay : number) : Eff Manager nat :=
  fun m =>
    (Normal (next_timer m),
     set_timers (timers m ++ [(next_timer m, delay)]) (S (next_timer m)) m).

(** [clearInterval(handle)]; [clearInterval(undefined)] does nothing. *)
Definition clearInterval (handle : option nat) : Eff Manager unit :=
  match handle with
  | None => ret tt
  | Some h =>
      modify (fun m =>
        set_timers (filter (fun t => t.1 ≠ h) (timers m)) (next_timer m) m)
  end.

Definition key_le (a b : N * HotKey) : Prop := (a.1 <= b.1)%N.

#[global] Instance key_le_dec : RelDecision key_le.
Proof. intros a b. unfold key_le. apply _. Defined.

(** [Object.values(o)] for an object whose keys are identities.
    JavaScript enumerates integer keys below [2^32 - 1] in ascending
    order; that order is the one kept here, for every key. *)
Definition Object_values (o : gmap N HotKey) : list HotKey :=
  (merge_sort key_le (map_to_list o)).*2.

Section Manager.
Context `{HotkCore}.

Definition native_register (ms : list Mod) (c : KeyCode)
  : Eff Manager NativeResult :=
  fun m => (Normal (innerRegister (native_log m) ms c),
            log_native (NRegister ms c) m).

Definition native_unregister (ms : list Mod) (c : KeyCode)
  : Eff Manager NativeResult :=
  fun m => (Normal (innerUnregister (native_log m) ms c),
            log_native (NUnregister ms c) m).

(** [manager.register(hotKey, isGlobal)] *)
Definition register (hotKey : HotKey) (isGlobal : bool) : Eff Manager unit :=
  let! m := get in
  if bool_decide (is_Some (locals m !! id_of hotKey))
     || bool_decide (is_Some (globals m !! id_of hotKey))
  then throw "Duplicated hotkey"
  else
    let! result := native_register (mods hotKey) (code hotKey) in
    if isOk result
    then modify (fun m =>
           if isGlobal
           then set_globals (<[result_id result := hotKey]> (globals m)) m
           else set_locals (<[result_id result := hotKey]> (locals m)) m)
    else ret tt.

(** [manager.unregister(hotKey)] *)
Definition unregister (hotKey : HotKey) : Eff Manager unit :=
  let! result := native_unregister (mods hotKey) (code hotKey) in
  if isOk result
  then modify (fun m =>
         set_globals (delete (result_id result) (globals m))
           (set_locals (delete (result_id result) (locals m)) m))
  else ret tt.

Definition clearLocals : Eff Manager unit :=
  let! m := get in
  for_of (Object_values (locals m)) unregister.

(** [manager.recoverRoot()] *)
Definition recoverRoot : Eff Manager unit :=
  let! m := get in
  match root m with
  | None => ret tt
  | Some snapshot =>
      clearInterval (timeoutRecoverRoot m) >>>
      clearLocals >>>
      for_of snapshot (fun hotKey => register hotKey false) >>>
      modify (set_root None) >>>
      modify (set_timeoutRecoverRoot None)
  end.

(** [withSnapshot(hotKeys, timeout)]; the timer it starts calls
    [manager.recoverRoot()] when it expires (see [timer_expires]). *)
Definition withSnapshot (hotKeys : list HotKey) (timeout : number)
  : Eff Manager unit :=
  (let! m := get in
   match timeoutRecoverRoot m with
   | Some h => clearInterval (Some h)
   | None => ret tt
   end) >>>
  (let! m := get in
   match root m with
   | None => modify (set_root (Some (Object_values (locals m))))
   | Some _ => ret tt
   end) >>>
  clearLocals >>>
  for_of hotKeys (fun hotKey => register hotKey false) >>>
  if negb (isNaN timeout)
  then
    let! handle := setTimeout (Math_min timeout (Fin TIMEOUT_MAX)) in
    modify (set_timeoutRecoverRoot (Some handle))
  else ret tt.

(** The event loop runs the callback of an outstanding timer once. *)
Definition timer_expires (handle : nat) : Eff Manager unit :=
  let! m := get in
  if bool_decide (handle ∈ (timers m).*1)
  then clearInterval (Some handle) >>> recoverRoot
  else ret tt.

(** [fireSubactions()] *)
Definition fireSubactions (this : HotKey) : Eff Manager unit :=
  if (length (_subactions this) =? 0)%nat
  then recoverRoot
  else withSnapshot (_subactions this) (_subactionsTimeout this).

End Manager.

(** ** The stroke detector and the dispatcher

    [lastHotKey] and [lastFire] are the static fields of the class;
    [fired] lists the callbacks invoked so far (oldest first). *)

Record World : Type := mkWorld {
  mgr : Manager;
  lastHotKey : option HotKey;
  lastFire : Z;
  fired : list Action
}.

Definition set_mgr (m : Manager) (w : World) : World :=
  {| mgr := m; lastHotKey := lastHotKey w; lastFire := lastFire w;
     fired := fired w |}.

Definition set_lastHotKey (h : option HotKey) (w : World) : World :=
  {| mgr := mgr w; lastHotKey := h; lastFire := lastFire w;
     fired := fired w |}.

Definition set_lastFire (t : Z) (w : World) : World :=
  {| mgr := mgr w; lastHotKey := lastHotKey w; lastFire := t;
     fired := fired w |}.

Definition log_fired (a : Action) (w : World) : World :=
  {| mgr := mgr w; lastHotKey := lastHotKey w; lastFire := lastFire w;
     fired := fired w ++ [a] |}.

Definition initial_world : World :=
  {| mgr := initial_manager; lastHotKey := None; lastFire := never;
     fired := [] |}.

(** Runs a manager operation inside the whole state. *)
Definition lift {A} (c : Eff Manager A) : Eff World A :=
  fun w => let (r, m') := c (mgr w) in (r, set_mgr m' w).

Inductive EventType : Type := Pressed | Released.

Record Event : Type := mkEvent {
  id : N;
  eventType : EventType
}.

Section Dispatcher.
Context `{HotkCore} `{UserCode}.

(** [this._action()] *)
Definition call_action (a : Action) : Eff World unit :=
  modify (log_fired a) >>>
  match a with
  | Noop => ret tt
  | Callback k => lift (callback k)
  end.

(** [fire()], with [now] the reading of [Date.now()] during the call. *)
Definition fire (now : Z) (this : HotKey) : Eff World unit :=
  let! w := get in
  let fire :=
    match _stroke this with Single => true | Double => false end
    || (match lastHotKey w with
        | Some last => same_object last this
        | None => false
        end
        && number_le (now - lastFire w) (_strokeTimeout this)) in
  (if fire
   then
     modify (set_lastFire never) >>>
     call_action (_action this) >>>
     lift (fireSubactions this)
   else modify (set_lastFire now)) >>>
  modify (set_lastHotKey (Some this)).

(** [manager.handleEvent(event)] *)
Definition handleEvent (now : Z) (event : Event) : Eff World unit :=
  let! w := get in
  let handler :=
    match globals (mgr w) !! id event with
    | Some h => Some h
    | None => locals (mgr w) !! id event
    end in
  match eventType event with
  | Pressed =>
      match handler with
      | Some h => fire now h
      | None => ret tt
      end
  | Released => ret tt
  end.

(** The terminal methods [register()] and [unregister()] of a hotkey. *)
Definition HotKey_register (this : HotKey) : Eff Manager unit :=
  register this (_global this).

Definition HotKey_unregister (this : HotKey) : Eff Manager unit :=
  unregister this.

End Dispatcher.

(** ** Notions used in the statements *)

(** [hoare P c Q]: from a state in [P], the state [c] leaves is in [Q],
    whether [c] returns or throws. *)
Definition hoare {S A} (P : S -> Prop) (c : Eff S A) (Q : S -> Prop) : Prop :=
  forall s, P s -> Q (c s).2.

(** No identity is a key of both scopes. *)
Definition scopes_disjoint (m : Manager) : Prop :=
  globals m ##ₘ locals m.

(** Every local hotkey sits under its own identity. *)
Definition locals_keyed `{HotkCore} (m : Manager) : Prop :=
  forall k h, locals m !! k = Some h -> id_of h = k.

(** The native core reports, for a registration it accepts, the identity
    the package computes itself. *)
Definition reports_computed_id `{HotkCore} : Prop :=
  forall log ms c,
    isOk (innerRegister log ms c) = true ->
    result_id (innerRegister log ms c) = getHotkeyId c ms.

(** The native core accepts every call under the computed identity. *)
Definition accepts_every_call `{HotkCore} : Prop :=
  forall log ms c,
    innerRegister log ms c = mkResult true (getHotkeyId c ms)
    /\ innerUnregister log ms c = mkResult true (getHotkeyId c ms).

(** What the core answers to a call made after the history [log], and
    the identity the package computes for the combination of the call. *)
Definition answer `{HotkCore} (log : list NativeCall) (call : NativeCall)
  : NativeResult :=
  match call with
  | NRegister ms c => innerRegister log ms c
  | NUnregister ms c => innerUnregister log ms c
  end.

Definition call_id `{HotkCore} (call : NativeCall) : N :=
  match call with
  | NRegister ms c | NUnregister ms c => getHotkeyId c ms
  end.

(** The core accepts the calls [calls], made one after the other from the
    history [log], each under the computed identity. *)
Fixpoint accepted `{HotkCore} (log calls : list NativeCall) : Prop :=
  match calls with
  | [] => True
  | call :: rest =>
      answer log call = mkResult true (call_id call)
      /\ accepted (log ++ [call]) rest
  end.

(** At most one timer is outstanding, and it is the one the manager
    holds the handle of. *)
Definition one_timer (m : Manager) : Prop :=
  timers m = []
  \/ exists h d, timers m = [(h, d)] /\ timeoutRecoverRoot m = Some h.

Definition entries `{HotkCore} (hs : list HotKey) : list (N * HotKey) :=
  (fun h => (id_of h, h)) <$> hs.

Definition unregister_calls (hs : list HotKey) : list NativeCall :=
  (fun h => NUnregister (mods h) (code h)) <$> hs.

Definition register_calls (hs : list HotKey) : list NativeCall :=
  (fun h => NRegister (mods h) (code h)) <$> hs.

(** The calls made by a descent to [children] from the locals [before]
    followed by the recovery of the root. *)
Definition round_trip_calls `{HotkCore} (before : gmap N HotKey)
    (children : list HotKey) : list NativeCall :=
  unregister_calls (Object_values before)
  ++ register_calls children
  ++ unregister_calls (Object_values (list_to_map (entries children)))
  ++ register_calls (Object_values before).

(** The map left after deleting the identities of [hs], one by one. *)
Definition forget `{HotkCore} (hs : list HotKey) (g : gmap N HotKey)
  : gmap N HotKey :=
  foldl (fun acc h => delete (id_of h) acc) g hs.

(** The part of the state that registration never touches. *)
Definition scheduling (m : Manager)
  : option (list HotKey) * option nat * list (nat * number) * nat :=
  (root m, timeoutRecoverRoot m, timers m, next_timer m).

Definition no_timer (m : Manager) : Prop := timers m = [].

(** The state in which a pending timer handle has been cleared. *)
Definition cleared (m : Manager) : Manager :=
  (clearInterval (timeoutRecoverRoot m) m).2.

(** The state in which the root snapshot has been taken if there was
    none. *)
Definition snapshotted (m : Manager) : Manager :=
  match root m with
  | None => set_root (Some (Object_values (locals m))) m
  | Some _ => m
  end.

(** The state in which the revert timer has been started. *)
Definition scheduled (timeout : number) (m : Manager) : Manager :=
  if negb (isNaN timeout)
  then set_timeoutRecoverRoot (Some (next_timer m))
         (set_timers
            (timers m ++ [(next_timer m, Math_min timeout (Fin TIMEOUT_MAX))])
            (S (next_timer m)) m)
  else m.

(** The state a computation leaves. *)
Definition finish {S A} (r : Completion A * S) : S := r.2.

(** Whether a first stroke of [D] is pending: [HotKey.lastHotKey === D]. *)
Definition awaiting (w : World) (D : HotKey) : bool :=
  match lastHotKey w with
  | Some last => same_object last D
  | None => false
  end.

(** What calling an action does to the manager: the default [() => { }]
    does nothing, the k-th function of the application is run. *)
Definition run_action `{UserCode} (a : Action) : Eff Manager unit :=
  match a with
  | Noop => ret tt
  | Callback k => callback k
  end.

(** What a press of [this] that fires comes to, from the state [w].  The
    timestamp is reset to [never]; the action is called once: it is on
    record and it is run on the manager as the press found it.  If the
    action throws, the call ends there with its error.  Otherwise
    [fireSubactions] runs on the manager the action left; if it throws,
    the call ends with that error; otherwise [this] is the last hotkey. *)
Definition firing `{HotkCore} `{UserCode} (this : HotKey) (w : World)
  : Completion unit * World :=
  let w0 := log_fired (_action this) (set_lastFire never w) in
  match run_action (_action this) (mgr w) with
  | (Thrown e, m1) => (Thrown e, set_mgr m1 w0)
  | (Normal _, m1) =>
      match fireSubactions this m1 with
      | (Thrown e, m2) => (Thrown e, set_mgr m2 w0)
      | (Normal _, m2) =>
          (Normal tt, set_lastHotKey (Some this) (set_mgr m2 w0))
      end
  end.

(** ** Implementations of the interfaces, used in the examples *)

Fixpoint name_sum (s : string) : N :=
  match s with
  | EmptyString => 0
  | String a rest => Ascii.N_of_ascii a + name_sum rest
  end%N.

(** Identities for the examples: a number made of the key name and of the
    modifier names, whatever the order of the modifiers. *)
Definition sample_id (c : KeyCode) (ms : list Mod) : N :=
  (name_sum c + 1000 * foldr (fun md acc => name_sum md + acc) 0 ms)%N.

(** A core that accepts every call and reports the computed identity. *)
Definition willing_core : HotkCore :=
  {| getHotkeyId := sample_id;
     innerRegister := fun _ ms c => mkResult true (sample_id c ms);
     innerUnregister := fun _ ms c => mkResult true (sample_id c ms) |}.

(** A core whose own identities leave the modifiers out. *)
Definition key_only_core : HotkCore :=
  {| getHotkeyId := sample_id;
     innerRegister := fun _ _ c => mkResult true (name_sum c);
     innerUnregister := fun _ _ c => mkResult true (name_sum c) |}.

(** A core for a machine on which other applications hold the keys
    [taken]: it turns down the registration of any of them. *)
Definition taken_core (taken : list KeyCode) : HotkCore :=
  {| getHotkeyId := sample_id;
     innerRegister := fun _ ms c =>
       mkResult (negb (bool_decide (c ∈ taken))) (sample_id c ms);
     innerUnregister := fun _ ms c => mkResult true (sample_id c ms) |}.

(** Whether the combination was registered earlier in the history. *)
Definition registered_before (log : list NativeCall) (ms : list Mod)
    (c : KeyCode) : bool :=
  existsb (fun call =>
             match call with
             | NRegister ms' c' => bool_decide (ms' = ms /\ c' = c)
             | NUnregister _ _ => false
             end) log.

(** A core on which a combination, once given back, is taken by another
    application: it accepts the first registration of a combination and
    turns down the later ones. *)
Definition once_core : HotkCore :=
  {| getHotkeyId := sample_id;
     innerRegister := fun log ms c =>
       mkResult (negb (registered_before log ms c)) (sample_id c ms);
     innerUnregister := fun _ ms c => mkResult true (sample_id c ms) |}.

(** Callbacks that do nothing to the manager. *)
Definition quiet_code : UserCode :=
  {| callback := fun _ => ret tt |}.

(** ** Hotkeys and events of the examples *)

Definition keyB : HotKey := hotKey 3 [] "KeyB".
Definition keyZ : HotKey := hotKey 4 [] "KeyZ".
(** Another object for the key of [keyB]. *)
Definition keyB_again : HotKey := hotKey 8 [] "KeyB".

(** [hotKey([], KeyCodes.KeyB).backToRoot(false)] *)
Definition keyB_staying : HotKey := Builder.backToRoot false keyB.

Definition ctrlA : HotKey := hotKey 1 ["Control"%string] "KeyA".
(** Another object for the same combination. *)
Definition ctrlA_again : HotKey := hotKey 2 ["Control"%string] "KeyA".
Definition altA : HotKey := hotKey 5 ["Alt"%string] "KeyA".

(** [hotKey([Mods.Control], KeyCodes.KeyA).stroke(Stroke.Double)] *)
Definition ctrlA_double : HotKey := Builder.stroke Double ctrlA.

(** [hotKey([Mods.Control], KeyCodes.KeyA).subaction(child)] *)
Definition ctrlA_with (child : HotKey) : HotKey :=
  Builder.set_subactions [child] ctrlA.

(** [hotKey([], KeyCodes.Escape).global(true)] and a local hotkey for the
    same key. *)
Definition escape_global : HotKey := Builder.global true (hotKey 6 [] "Escape").
Definition escape_local : HotKey := hotKey 7 [] "Escape".

(** Callbacks that use the manager: each of them calls
    [manager.unregister(keyZ)]. *)
Definition busy_code : UserCode :=
  {| callback := fun _ => unregister (H := willing_core) keyZ |}.


(** The hotkeys of the scenario of the package's documentation: Ctrl+A
    with a double stroke, an action and the child B, which has an action
    of its own. *)
Definition scenario_child : HotKey := Builder.action (Callback 2) keyB.
Definition scenario_parent : HotKey :=
  Builder.set_subactions [scenario_child]
    (Builder.action (Callback 1) ctrlA_double).

Definition pressed `{HotkCore} (h : HotKey) : Event :=
  {| id := id_of h; eventType := Pressed |}.

(** The state after [ctrlA_with keyB_staying] was registered and pressed:
    the context has descended to [keyB_staying]. *)
Definition descended_world : World :=
  finish ((lift (HotKey_register (H := willing_core)
                   (ctrlA_with keyB_staying)) >>>
           handleEvent (H := willing_core) (H0 := quiet_code) 5000
             (pressed (H := willing_core) (ctrlA_with keyB_staying)))
          initial_world).

(** The root context of the examples: [escape_global] registered as a
    global, [ctrlA_with keyB] as a local. *)
Definition rooted_manager : Manager :=
  finish ((HotKey_register (H := willing_core) escape_global >>>
           HotKey_register (H := willing_core) (ctrlA_with keyB))
          initial_manager).

(** The context after a descent to [keyB] and [keyZ]. *)
Definition descended_manager : Manager :=
  finish (withSnapshot (H := willing_core) [keyB; keyZ] (Fin 1000)
            rooted_manager).

(** ** The rest of the module *)

(** [o[key] = value] on a plain object (one made by [{}], whose prototype
    is the standard [Object.prototype]) with a string as value.  The map
    holds the own properties of the object.  The assignment creates or
    overwrites the own property [key], except for the name [__proto__]:
    that one is an accessor of [Object.prototype], and its setter ignores
    a value that is not an object, so nothing is stored. *)
Definition set_property (key value : string) (o : gmap string string)
  : gmap string string :=
  if decide (key = "__proto__"%string) then o else <[key := value]> o.

(** [for (const key of keys) map[key] = key], from the empty object: the
    loop that fills [keyCodesMap] and [ModsMap].  The result is the own
    properties; a name that is not among them reads as whatever
    [Object.prototype] provides. *)
Definition self_map (keys : list string) : gmap string string :=
  foldl (fun acc key => set_property key key acc) ∅ keys.

(** [KeyCodes] and [Mods], given what [keyCodeKeys()] and [modKeys()] of
    the native core return. *)
Definition KeyCodes (keyCodeKeys : list KeyCode) : gmap string KeyCode :=
  self_map keyCodeKeys.

Definition Mods (modKeys : list Mod) : gmap string Mod :=
  self_map modKeys.

(** One call of a builder method, and a fluent chain of them: each method
    returns [this], and a throw ends the chain. *)
Inductive BuilderCall : Type :=
  | CallDescription (d : string)
  | CallStroke (s : Stroke)
  | CallStrokeTimeout (timeout : number)
  | CallAction (a : Action)
  | CallSubaction (sub : HotKey)
  | CallSubactions (subs : list HotKey)
  | CallSubactionsTimeout (timeout : number)
  | CallBackToRoot (value : bool)
  | CallGlobal (value : bool).

Definition builder_call (call : BuilderCall) (this : HotKey)
  : Completion HotKey :=
  match call with
  | CallDescription d => Normal (Builder.description d this)
  | CallStroke s => Normal (Builder.stroke s this)
  | CallStrokeTimeout timeout => Normal (Builder.strokeTimeout timeout this)
  | CallAction a => Normal (Builder.action a this)
  | CallSubaction sub => Builder.subaction sub this
  | CallSubactions subs => Builder.subactions subs this
  | CallSubactionsTimeout timeout =>
      Normal (Builder.subactionsTimeout timeout this)
  | CallBackToRoot value => Normal (Builder.backToRoot value this)
  | CallGlobal value => Normal (Builder.global value this)
  end.

Fixpoint chain (calls : list BuilderCall) (this : HotKey)
  : Completion HotKey :=
  match calls with
  | [] => Normal this
  | call :: rest =>
      match builder_call call this with
      | Normal this' => chain rest this'
      | Thrown e => Thrown e
      end
  end.

(** A global hotkey has no subactions. *)
Definition global_is_childless (h : HotKey) : Prop :=
  _global h = true -> _subactions h = [].

(** At most one timer is outstanding, it is the one held, and while it
    is outstanding a root snapshot is pending. *)
Definition timer_paired (m : Manager) : Prop :=
  one_timer m /\ (timers m <> [] -> is_Some (root m)).

(** The calls made by a descent to [children] from the locals [before],
    a further descent to [grandchildren], and the recovery of the root. *)
Definition nested_calls `{HotkCore} (before : gmap N HotKey)
    (children grandchildren : list HotKey) : list NativeCall :=
  (unregister_calls (Object_values before) ++ register_calls children)
  ++ (unregister_calls (Object_values (list_to_map (entries children)))
      ++ register_calls grandchildren)
  ++ (unregister_calls (Object_values (list_to_map (entries grandchildren)))
      ++ register_calls (Object_values before)).

(** Callbacks that throw. *)
Definition failing_code : UserCode :=
  {| callback := fun _ => throw "action failed" |}.

(** A hotkey with an application callback as action. *)
Definition ctrlA_acting : HotKey := Builder.action (Callback 1) ctrlA.

(** Double-stroke hotkeys with special stroke timeouts. *)
Definition ctrlA_patient : HotKey :=
  Builder.strokeTimeout PosInfinity ctrlA_double.
Definition ctrlA_never : HotKey := Builder.strokeTimeout NaN ctrlA_double.

(** [ctrlA_patient] with an application callback as action. *)
Definition ctrlA_patient_acting : HotKey :=
  Builder.action (Callback 1) ctrlA_patient.

(** A Double-stroke hotkey for another combination. *)
Definition keyB_double : HotKey := Builder.stroke Double keyB.

(** * Properties *)

Ltac run := unfold bind, ret, get, modify, throw; simpl.

Ltac each_member H :=
  repeat (apply elem_of_cons in H as [->|H]; [vm_compute; reflexivity|]);
  apply not_elem_of_nil in H; destruct H.

Section StrokeDetector.
Context `{HotkCore} `{UserCode}.

(** Manager operations leave the stroke detector and the list of
    invoked callbacks alone. *)
Lemma lift_frame {A} (c : Eff Manager A) (w : World) :
  lastHotKey (lift c w).2 = lastHotKey w
  /\ lastFire (lift c w).2 = lastFire w
  /\ fired (lift c w).2 = fired w
  /\ mgr (lift c w).2 = (c (mgr w)).2
  /\ (lift c w).1 = (c (mgr w)).1.
Proof. unfold lift. destruct (c (mgr w)) as [r m']. simpl. tauto. Qed.

Lemma call_action_frame (a : Action) (w : World) :
  lastHotKey (call_action a w).2 = lastHotKey w
  /\ lastFire (call_action a w).2 = lastFire w
  /\ fired (call_action a w).2 = fired w ++ [a].
Proof.
  unfold call_action. run. destruct a as [|k]; simpl; [tauto|].
  destruct (lift_frame (callback k) (log_fired (Callback k) w))
    as (-> & -> & -> & _).
  simpl. tauto.
Qed.

(** The branch of [fire] that runs the action. *)
Lemma fire_fires (now : Z) (this : HotKey) (w : World) :
  match _stroke this with Single => true | Double => false end
  || (awaiting w this && number_le (now - lastFire w) (_strokeTimeout this))
  = true ->
  exists r w',
    fire now this w = (r, w')
    /\ fired w' = fired w ++ [_action this]
    /\ lastFire w' = never
    /\ (r = Normal tt -> lastHotKey w' = Some this).
Proof.
  intros Hfire. unfold fire, awaiting in *. run. rewrite Hfire. simpl.
  pose proof (call_action_frame (_action this) (set_lastFire never w))
    as (_ & Hlf & Hfd).
  destruct (call_action (_action this) (set_lastFire never w))
    as [[[]|e] w1] eqn:Hcall; simpl in *.
  - pose proof (lift_frame (fireSubactions this) w1) as (_ & Hlf2 & Hfd2 & _).
    destruct (lift (fireSubactions this) w1) as [[[]|e] w2]; simpl in *.
    + eexists _, _. split; [reflexivity|]. simpl. repeat split; congruence.
    + eexists _, _. split; [reflexivity|]. repeat split; congruence.
  - eexists _, _. split; [reflexivity|]. repeat split; congruence.
Qed.

(** The other branch: the press becomes the pending first stroke. *)
Lemma fire_waits (now : Z) (this : HotKey) (w : World) :
  match _stroke this with Single => true | Double => false end
  || (awaiting w this && number_le (now - lastFire w) (_strokeTimeout this))
  = false ->
  fire now this w
  = (Normal tt, set_lastHotKey (Some this) (set_lastFire now w)).
Proof.
  intros Hfire. unfold fire, awaiting in *. run. rewrite Hfire. reflexivity.
Qed.

(** The firing branch in full: the call is [firing]. *)
Lemma fire_firing (now : Z) (this : HotKey) (w : World) :
  match _stroke this with Single => true | Double => false end
  || (awaiting w this && number_le (now - lastFire w) (_strokeTimeout this))
  = true ->
  fire now this w = firing this w.
Proof.
  intros Hfire. unfold fire, firing, awaiting in *. run. rewrite Hfire.
  simpl. unfold call_action, run_action. run.
  destruct (_action this) as [|k]; run.
  - unfold lift. simpl.
    destruct (fireSubactions this (mgr w)) as [[[]|e] m2]; reflexivity.
  - unfold lift. simpl.
    destruct (callback k (mgr w)) as [[[]|e] m1]; simpl; [|reflexivity].
    destruct (fireSubactions this m1) as [[[]|e] m2]; reflexivity.
Qed.

(** What [firing] leaves in the stroke detector and on record. *)
Lemma firing_frame (this : HotKey) (w : World) :
  fired (firing this w).2 = fired w ++ [_action this]
  /\ lastFire (firing this w).2 = never
  /\ ((firing this w).1 = Normal tt ->
      lastHotKey (firing this w).2 = Some this)
  /\ (forall e, (firing this w).1 = Thrown e ->
      lastHotKey (firing this w).2 = lastHotKey w).
Proof.
  unfold firing.
  destruct (run_action (_action this) (mgr w)) as [[[]|e] m1]; simpl.
  - destruct (fireSubactions this m1) as [[[]|e] m2]; simpl;
      repeat split; congruence.
  - repeat split; congruence.
Qed.


(** The boundary of the window: an elapsed time equal to a finite
    timeout still counts. *)
Lemma number_le_boundary (t : Z) : number_le t (Fin t) = true.
Proof. simpl. lia. Qed.

(** C4.  A press routed to a Single-stroke definition [D] fires, whatever
    the time and the pending stroke: the call is [firing D w], so the
    action is called exactly once (it is run once on the manager of the
    press, and it is once more on record) and then [fireSubactions] runs,
    unless the action threw.  The timestamp is reset to [never] (it is
    not [now]); when the call returns [D] is the last hotkey, and when it
    throws the last hotkey is the one from before. *)
Theorem single_stroke_fires (now : Z) (D : HotKey) (w : World) :
  _stroke D = Single ->
  fire now D w = firing D w
  /\ fired (firing D w).2 = fired w ++ [_action D]
  /\ lastFire (firing D w).2 = never
  /\ ((firing D w).1 = Normal tt -> lastHotKey (firing D w).2 = Some D)
  /\ (forall e, (firing D w).1 = Thrown e ->
      lastHotKey (firing D w).2 = lastHotKey w).
Proof.
  intros HD. split; [|apply firing_frame].
  apply fire_firing. rewrite HD. reflexivity.
Qed.

End StrokeDetector.

Section Registration.
Context `{HotkCore}.

Lemma register_unfold (hotKey : HotKey) (isGlobal : bool) (m : Manager) :
  register hotKey isGlobal m =
  if bool_decide (is_Some (locals m !! id_of hotKey))
     || bool_decide (is_Some (globals m !! id_of hotKey))
  then (Thrown "Duplicated hotkey", m)
  else
    let result := innerRegister (native_log m) (mods hotKey) (code hotKey) in
    let m1 := log_native (NRegister (mods hotKey) (code hotKey)) m in
    (Normal tt,
     if isOk result
     then if isGlobal
          then set_globals (<[result_id result := hotKey]> (globals m1)) m1
          else set_locals (<[result_id result := hotKey]> (locals m1)) m1
     else m1).
Proof.
  unfold register, native_register. run.
  destruct (bool_decide _ || bool_decide _); [reflexivity|].
  destruct (isOk _); reflexivity.
Qed.

Lemma unregister_unfold (hotKey : HotKey) (m : Manager) :
  unregister hotKey m =
  let result := innerUnregister (native_log m) (mods hotKey) (code hotKey) in
  let m1 := log_native (NUnregister (mods hotKey) (code hotKey)) m in
  (Normal tt,
   if isOk result
   then set_globals (delete (result_id result) (globals m1))
          (set_locals (delete (result_id result) (locals m1)) m1)
   else m1).
Proof.
  unfold unregister, native_unregister. run.
  destruct (isOk _); reflexivity.
Qed.

(** Hotkeys with the same key code and modifiers have the same
    identity. *)
Lemma same_combination_same_identity (D1 D2 : HotKey) :
  mods D2 = mods D1 -> code D2 = code D1 -> id_of D2 = id_of D1.
Proof.
  intros Hmods Hcode. unfold id_of. rewrite Hmods, Hcode. reflexivity.
Qed.



(** C8. When the identity is free, so that the native core is asked,
    and the core's answer is not ok, [register] returns without an
    error and neither map changes: only the call is on record. *)
Theorem native_refusal_is_dropped
    (hotKey : HotKey) (isGlobal : bool) (m : Manager) :
  locals m !! id_of hotKey = None ->
  globals m !! id_of hotKey = None ->
  isOk (innerRegister (native_log m) (mods hotKey) (code hotKey)) = false ->
  exists m',
    register hotKey isGlobal m = (Normal tt, m')
    /\ m' = log_native (NRegister (mods hotKey) (code hotKey)) m
    /\ globals m' = globals m
    /\ locals m' = locals m.
Proof.
  intros Hl Hg Hno. eexists. rewrite register_unfold.
  rewrite Hl, Hg.
  rewrite !bool_decide_eq_false_2 by (intros [? ?]; discriminate).
  cbv zeta. simpl orb. cbv iota. rewrite Hno. repeat split.
Qed.

End Registration.

(** ** Reasoning about effectful code *)

Section Hoare.
Context {S : Type}.
Implicit Types P Q R : S -> Prop.

Lemma hoare_ret {A} P (a : A) : hoare P (ret a) P.
Proof. intros s Hs. exact Hs. Qed.

Lemma hoare_throw {A} P (e : string) : hoare P (@throw S A e) P.
Proof. intros s Hs. exact Hs. Qed.

Lemma hoare_modify P Q (f : S -> S) :
  (forall s, P s -> Q (f s)) -> hoare P (modify f) Q.
Proof. intros Hf s Hs. apply Hf, Hs. Qed.

Lemma hoare_weaken {A} P P' Q Q' (c : Eff S A) :
  hoare P' c Q' -> (forall s, P s -> P' s) -> (forall s, Q' s -> Q s) ->
  hoare P c Q.
Proof. intros Hc HP HQ s Hs. apply HQ, Hc, HP, Hs. Qed.

Lemma hoare_bind {A B} P R Q (c : Eff S A) (k : A -> Eff S B) :
  hoare P c R ->
  (forall s, R s -> Q s) ->
  (forall a, hoare R (k a) Q) ->
  hoare P (bind c k) Q.
Proof.
  intros Hc HRQ Hk s Hs. unfold bind. specialize (Hc s Hs).
  destruct (c s) as [[a|e] s']; simpl in *.
  - apply Hk, Hc.
  - apply HRQ, Hc.
Qed.

Lemma hoare_seq {A B} P (c : Eff S A) (k : A -> Eff S B) :
  hoare P c P -> (forall a, hoare P (k a) P) -> hoare P (bind c k) P.
Proof. intros Hc Hk. apply hoare_bind with (R := P); auto. Qed.

Lemma hoare_get {B} P Q (k : S -> Eff S B) :
  (forall s0, P s0 -> hoare (fun s => s = s0) (k s0) Q) ->
  hoare P (bind get k) Q.
Proof. intros Hk s Hs. unfold bind, get. apply (Hk s Hs). reflexivity. Qed.

Lemma hoare_get_inv {B} P (k : S -> Eff S B) :
  (forall s0, hoare P (k s0) P) -> hoare P (bind get k) P.
Proof. intros Hk s Hs. unfold bind, get. apply Hk, Hs. Qed.

Lemma hoare_for_of {A} P (f : A -> Eff S unit) (xs : list A) :
  (forall x, hoare P (f x) P) -> hoare P (for_of xs f) P.
Proof.
  intros Hf. induction xs as [|x xs IH]; simpl.
  - apply hoare_ret.
  - apply hoare_seq; auto.
Qed.

(** A loop whose body always returns, returns. *)
Lemma for_of_returns {A} (f : A -> Eff S unit) (xs : list A) :
  (forall x s, (f x s).1 = Normal tt) ->
  forall s, (for_of xs f s).1 = Normal tt.
Proof.
  intros Hf. induction xs as [|x xs IH]; intros s; simpl; [reflexivity|].
  unfold bind. specialize (Hf x s).
  destruct (f x s) as [[[]|e] s']; simpl in *; [apply IH | discriminate].
Qed.

End Hoare.

(** A property of the two scopes that [register] and [unregister] keep
    is kept by every operation built from them. *)
Section ScopeInvariant.
Context `{HotkCore} `{UserCode}.
Variable P : Manager -> Prop.
Hypothesis P_scopes :
  forall m m', globals m' = globals m -> locals m' = locals m -> P m -> P m'.
Hypothesis P_register :
  forall hotKey isGlobal, hoare P (register hotKey isGlobal) P.
Hypothesis P_unregister : forall hotKey, hoare P (unregister hotKey) P.

Lemma clearLocals_keeps : hoare P clearLocals P.
Proof.
  apply hoare_get_inv. intros m0. apply hoare_for_of, P_unregister.
Qed.

Lemma clearInterval_keeps handle : hoare P (clearInterval handle) P.
Proof.
  destruct handle; [|apply hoare_ret].
  apply hoare_modify. intros m. apply P_scopes; reflexivity.
Qed.

Lemma recoverRoot_keeps : hoare P recoverRoot P.
Proof.
  apply hoare_get_inv. intros m0.
  destruct (root m0) as [snapshot|]; [|apply hoare_ret].
  apply hoare_seq; [apply clearInterval_keeps|intros _].
  apply hoare_seq; [apply clearLocals_keeps|intros _].
  apply hoare_seq; [apply hoare_for_of; intros; apply P_register|intros _].
  apply hoare_seq; [|intros _]; apply hoare_modify; intros m;
    apply P_scopes; reflexivity.
Qed.

Lemma withSnapshot_keeps hotKeys timeout :
  hoare P (withSnapshot hotKeys timeout) P.
Proof.
  unfold withSnapshot.
  apply hoare_seq.
  { apply hoare_get_inv. intros m0.
    destruct (timeoutRecoverRoot m0);
      [apply clearInterval_keeps | apply hoare_ret]. }
  intros _. apply hoare_seq.
  { apply hoare_get_inv. intros m0.
    destruct (root m0); [apply hoare_ret|].
    apply hoare_modify. intros m. apply P_scopes; reflexivity. }
  intros _. apply hoare_seq; [apply clearLocals_keeps|intros _].
  apply hoare_seq; [apply hoare_for_of; intros; apply P_register|intros _].
  destruct (negb (isNaN timeout)); [|apply hoare_ret].
  apply hoare_seq.
  { intros m. apply P_scopes; reflexivity. }
  intros handle. apply hoare_modify. intros m. apply P_scopes; reflexivity.
Qed.

Lemma timer_expires_keeps handle : hoare P (timer_expires handle) P.
Proof.
  apply hoare_get_inv. intros m0.
  destruct (bool_decide _); [|apply hoare_ret].
  apply hoare_seq; [apply clearInterval_keeps|intros _].
  apply recoverRoot_keeps.
Qed.

Lemma fireSubactions_keeps this : hoare P (fireSubactions this) P.
Proof.
  unfold fireSubactions. destruct (_ =? _)%nat.
  - apply recoverRoot_keeps.
  - apply withSnapshot_keeps.
Qed.

Lemma lift_hoare {A} (Q R : Manager -> Prop) (c : Eff Manager A) :
  hoare Q c R ->
  hoare (fun w => Q (mgr w)) (lift c) (fun w => R (mgr w)).
Proof.
  intros Hc w Hw. specialize (Hc _ Hw). unfold lift.
  destruct (c (mgr w)) as [r m']. exact Hc.
Qed.

Hypothesis P_callbacks : forall k, hoare P (callback k) P.

Lemma fire_keeps now this :
  hoare (fun w => P (mgr w)) (fire now this) (fun w => P (mgr w)).
Proof.
  unfold fire. apply hoare_get_inv. intros w0. cbv zeta.
  apply hoare_seq; [|intros _; apply hoare_modify; intros w Hw; exact Hw].
  destruct (_ || _); [|apply hoare_modify; intros w Hw; exact Hw].
  apply hoare_seq; [apply hoare_modify; intros w Hw; exact Hw|intros _].
  apply hoare_seq.
  - unfold call_action.
    apply hoare_seq; [apply hoare_modify; intros w Hw; exact Hw|intros _].
    destruct (_action this) as [|k]; [apply hoare_ret|].
    apply lift_hoare, P_callbacks.
  - intros _. apply lift_hoare, fireSubactions_keeps.
Qed.

Lemma handleEvent_keeps now event :
  hoare (fun w => P (mgr w)) (handleEvent now event) (fun w => P (mgr w)).
Proof.
  unfold handleEvent. apply hoare_get_inv. intros w0. cbv zeta.
  destruct (eventType event); [|apply hoare_ret].
  destruct (match globals (mgr w0) !! id event with
            | Some h => Some h
            | None => locals (mgr w0) !! id event
            end); [apply fire_keeps | apply hoare_ret].
Qed.

End ScopeInvariant.

Section Disjointness.
Context `{HotkCore} `{UserCode}.
Hypothesis core_reports_computed_id : reports_computed_id.

Lemma disjoint_scopes m m' :
  globals m' = globals m -> locals m' = locals m ->
  scopes_disjoint m -> scopes_disjoint m'.
Proof. unfold scopes_disjoint. intros -> ->. tauto. Qed.

Lemma register_keeps_disjoint hotKey isGlobal :
  hoare scopes_disjoint (register hotKey isGlobal) scopes_disjoint.
Proof.
  intros m Hm. rewrite register_unfold.
  destruct (bool_decide (is_Some (locals m !! id_of hotKey))) eqn:Hl;
    [exact Hm|].
  destruct (bool_decide (is_Some (globals m !! id_of hotKey))) eqn:Hg;
    [exact Hm|].
  apply bool_decide_eq_false_1 in Hl, Hg.
  rewrite <- eq_None_not_Some in Hl, Hg.
  cbn zeta. simpl.
  destruct (isOk _) eqn:Hok; [|exact Hm].
  rewrite (core_reports_computed_id _ _ _ Hok).
  fold (id_of hotKey).
  unfold scopes_disjoint in *.
  destruct isGlobal; simpl.
  - apply map_disjoint_insert_l_2; assumption.
  - apply map_disjoint_insert_r_2; assumption.
Qed.

Lemma unregister_keeps_disjoint hotKey :
  hoare scopes_disjoint (unregister hotKey) scopes_disjoint.
Proof.
  intros m Hm. rewrite unregister_unfold. cbn zeta. simpl.
  destruct (isOk _); [|exact Hm].
  unfold scopes_disjoint in *. simpl.
  apply map_disjoint_delete_l, map_disjoint_delete_r, Hm.
Qed.

Lemma keyed_scopes m m' :
  globals m' = globals m -> locals m' = locals m ->
  locals_keyed m -> locals_keyed m'.
Proof. unfold locals_keyed. intros _ ->. tauto. Qed.

Lemma register_keeps_keyed hotKey isGlobal :
  hoare locals_keyed (register hotKey isGlobal) locals_keyed.
Proof.
  intros m Hm. rewrite register_unfold.
  destruct (_ || _); [exact Hm|]. cbn zeta. simpl.
  destruct (isOk _) eqn:Hok; [|exact Hm].
  rewrite (core_reports_computed_id _ _ _ Hok).
  fold (id_of hotKey).
  destruct isGlobal; [exact Hm|].
  intros k h. simpl. rewrite lookup_insert_Some.
  intros [[<- <-] | [_ Hk]]; [reflexivity | apply Hm, Hk].
Qed.

Lemma unregister_keeps_keyed hotKey :
  hoare locals_keyed (unregister hotKey) locals_keyed.
Proof.
  intros m Hm. rewrite unregister_unfold. cbn zeta. simpl.
  destruct (isOk _); [|exact Hm].
  intros k h. simpl. rewrite lookup_delete_Some.
  intros [_ Hk]. apply Hm, Hk.
Qed.

(** Disjoint scopes with every local under its identity: the states
    in which the later statements about contexts are made.  With such a
    core every operation keeps them so. *)
Lemma consistency_kept :
  let consistent m := scopes_disjoint m /\ locals_keyed m in
  consistent initial_manager
  /\ (forall hotKey isGlobal,
        hoare consistent (register hotKey isGlobal) consistent)
  /\ (forall hotKey, hoare consistent (unregister hotKey) consistent)
  /\ hoare consistent recoverRoot consistent
  /\ (forall hotKeys timeout,
        hoare consistent (withSnapshot hotKeys timeout) consistent)
  /\ (forall handle, hoare consistent (timer_expires handle) consistent).
Proof.
  intros consistent.
  assert (Hs : forall m m', globals m' = globals m ->
            locals m' = locals m -> consistent m -> consistent m').
  { intros m m' Hg Hl [Hd Hk]. split.
    - exact (disjoint_scopes m m' Hg Hl Hd).
    - exact (keyed_scopes m m' Hg Hl Hk). }
  assert (Hr : forall hotKey isGlobal,
            hoare consistent (register hotKey isGlobal) consistent).
  { intros hotKey isGlobal m [Hd Hk]. split.
    - apply register_keeps_disjoint, Hd.
    - apply register_keeps_keyed, Hk. }
  assert (Hu : forall hotKey,
            hoare consistent (unregister hotKey) consistent).
  { intros hotKey m [Hd Hk]. split.
    - apply unregister_keeps_disjoint, Hd.
    - apply unregister_keeps_keyed, Hk. }
  split.
  { split; [apply map_disjoint_empty_l|].
    intros k h Hk. simpl in Hk. rewrite lookup_empty in Hk. discriminate. }
  split; [exact Hr|]. split; [exact Hu|].
  split; [apply recoverRoot_keeps; assumption|].
  split; [intros; apply withSnapshot_keeps; assumption|].
  intros; apply timer_expires_keeps; assumption.
Qed.

(** C3.  When the native core reports the computed identity
    for every registration it accepts, the key sets of [globals] and
    [locals] are disjoint at start-up and stay disjoint across
    [register], [unregister], [recoverRoot], entering a subaction
    context and the expiry of the revert timer, whether the operation
    returns or throws, and across [handleEvent] when the callbacks keep
    them disjoint. *)
Theorem scopes_stay_disjoint :
  scopes_disjoint initial_manager
  /\ (forall hotKey isGlobal,
        hoare scopes_disjoint (register hotKey isGlobal) scopes_disjoint)
  /\ (forall hotKey,
        hoare scopes_disjoint (unregister hotKey) scopes_disjoint)
  /\ hoare scopes_disjoint recoverRoot scopes_disjoint
  /\ (forall hotKeys timeout,
        hoare scopes_disjoint (withSnapshot hotKeys timeout) scopes_disjoint)
  /\ (forall handle,
        hoare scopes_disjoint (timer_expires handle) scopes_disjoint)
  /\ ((forall k, hoare scopes_disjoint (callback k) scopes_disjoint) ->
      forall now event,
        hoare (fun w => scopes_disjoint (mgr w)) (handleEvent now event)
              (fun w => scopes_disjoint (mgr w))).
Proof.
  pose proof disjoint_scopes as Hs.
  pose proof register_keeps_disjoint as Hr.
  pose proof unregister_keeps_disjoint as Hu.
  split; [apply map_disjoint_empty_l|].
  split; [exact Hr|]. split; [exact Hu|].
  split; [apply recoverRoot_keeps; assumption|].
  split; [intros; apply withSnapshot_keeps; assumption|].
  split; [intros; apply timer_expires_keeps; assumption|].
  intros Hcb now event. apply handleEvent_keeps; assumption.
Qed.

End Disjointness.

(** ** What the operations compute when the core accepts every call *)

Lemma bind_normal {S A B} (c : Eff S A) (k : A -> Eff S B) s a s' :
  c s = (Normal a, s') -> bind c k s = k a s'.
Proof. intros Hc. unfold bind. rewrite Hc. reflexivity. Qed.

Lemma bind_thrown {S A B} (c : Eff S A) (k : A -> Eff S B) s e s' :
  c s = (Thrown e, s') -> bind c k s = (Thrown e, s').
Proof. intros Hc. unfold bind. rewrite Hc. reflexivity. Qed.

Lemma elem_of_Object_values (o : gmap N HotKey) (h : HotKey) :
  h ∈ Object_values o <-> exists k, o !! k = Some h.
Proof.
  unfold Object_values. rewrite list_elem_of_fmap. split.
  - intros [[k h'] [-> Hin]]. exists k.
    rewrite merge_sort_Permutation in Hin.
    apply elem_of_map_to_list in Hin. exact Hin.
  - intros [k Hk]. exists (k, h). split; [reflexivity|].
    rewrite merge_sort_Permutation. apply elem_of_map_to_list. exact Hk.
Qed.

Section Accepted.
Context `{HotkCore}.

Lemma lookup_forget (hs : list HotKey) (g : gmap N HotKey) (k : N) :
  forget hs g !! k = if decide (k ∈ id_of <$> hs) then None else g !! k.
Proof.
  unfold forget. revert g. induction hs as [|h hs IH]; intros g.
  - rewrite fmap_nil. cbn [foldl]. case_decide as Hin; [|reflexivity].
    apply not_elem_of_nil in Hin. destruct Hin.
  - rewrite fmap_cons. cbn [foldl]. rewrite IH.
    destruct (decide (k ∈ id_of <$> hs)) as [Hin|Hnin];
      destruct (decide (k ∈ id_of h :: (id_of <$> hs))) as [Hin'|Hnin'].
    + reflexivity.
    + exfalso. apply Hnin', list_elem_of_further, Hin.
    + apply elem_of_cons in Hin' as [->|Hin']; [|tauto].
      apply lookup_delete_eq.
    + apply lookup_delete_ne. intros <-.
      apply Hnin', list_elem_of_here.
Qed.

Lemma entries_keys (hs : list HotKey) : (entries hs).*1 = id_of <$> hs.
Proof.
  unfold entries. rewrite <- list_fmap_compose. reflexivity.
Qed.

(** Re-inserting the values of a keyed map under their identities gives
    the map back. *)
Lemma entries_Object_values (o : gmap N HotKey) :
  (forall k h, o !! k = Some h -> id_of h = k) ->
  list_to_map (entries (Object_values o)) = o.
Proof.
  intros Hkeyed. unfold entries, Object_values.
  rewrite <- list_fmap_compose.
  set (l := merge_sort key_le (map_to_list o)).
  assert (Hperm : l ≡ₚ map_to_list o) by apply merge_sort_Permutation.
  assert (Hid : ((fun h => (id_of h, h)) ∘ snd) <$> l = l).
  { rewrite <- (list_fmap_id l) at 2. apply list_fmap_ext.
    intros i [k h] Hi. simpl.
    assert ((k, h) ∈ map_to_list o) as Hin.
    { rewrite <- Hperm. apply list_elem_of_lookup. eauto. }
    apply elem_of_map_to_list in Hin.
    rewrite (Hkeyed _ _ Hin). reflexivity. }
  rewrite Hid.
  rewrite (list_to_map_proper l (map_to_list o)).
  - apply list_to_map_to_list.
  - rewrite Hperm. apply NoDup_fst_map_to_list.
  - exact Hperm.
Qed.

Lemma NoDup_ids_Object_values (o : gmap N HotKey) :
  (forall k h, o !! k = Some h -> id_of h = k) ->
  NoDup (id_of <$> Object_values o).
Proof.
  intros Hkeyed. unfold Object_values.
  set (l := merge_sort key_le (map_to_list o)).
  assert (Hperm : l ≡ₚ map_to_list o) by apply merge_sort_Permutation.
  assert (Hid : id_of <$> l.*2 = l.*1).
  { rewrite <- list_fmap_compose. apply list_fmap_ext.
    intros i [k h] Hi. simpl.
    assert ((k, h) ∈ map_to_list o) as Hin.
    { rewrite <- Hperm. apply list_elem_of_lookup. eauto. }
    apply elem_of_map_to_list in Hin. apply Hkeyed, Hin. }
  rewrite Hid, Hperm. apply NoDup_fst_map_to_list.
Qed.

Lemma accepted_app (log calls more : list NativeCall) :
  accepted log (calls ++ more)
  <-> accepted log calls /\ accepted (log ++ calls) more.
Proof.
  revert log. induction calls as [|call calls IH]; intros log; simpl.
  - rewrite app_nil_r. tauto.
  - rewrite IH, <- app_assoc. simpl. tauto.
Qed.

Lemma accepts_every_call_accepted (log calls : list NativeCall) :
  accepts_every_call -> accepted log calls.
Proof.
  intros Hall. revert log. induction calls as [|call calls IH]; intros log;
    simpl; [exact I|].
  split; [|apply IH].
  destruct call as [ms c|ms c]; simpl; apply Hall.
Qed.

Lemma unregister_accepted (hotKey : HotKey) (m : Manager) :
  accepted (native_log m) (unregister_calls [hotKey]) ->
  unregister hotKey m =
  (Normal tt,
   {| globals := delete (id_of hotKey) (globals m);
      locals := delete (id_of hotKey) (locals m);
      root := root m;
      timeoutRecoverRoot := timeoutRecoverRoot m;
      timers := timers m;
      next_timer := next_timer m;
      native_log := native_log m ++ [NUnregister (mods hotKey) (code hotKey)]
   |}).
Proof.
  intros [Hacc _]. simpl in Hacc.
  rewrite unregister_unfold, Hacc. reflexivity.
Qed.

Lemma unregister_all_accepted (hs : list HotKey) (m : Manager) :
  accepted (native_log m) (unregister_calls hs) ->
  for_of hs unregister m =
  (Normal tt,
   {| globals := forget hs (globals m);
      locals := forget hs (locals m);
      root := root m;
      timeoutRecoverRoot := timeoutRecoverRoot m;
      timers := timers m;
      next_timer := next_timer m;
      native_log := native_log m ++ unregister_calls hs |}).
Proof.
  revert m. induction hs as [|h hs IH]; intros m Hacc; simpl.
  - unfold ret, forget, unregister_calls. simpl. rewrite app_nil_r.
    destruct m; reflexivity.
  - destruct Hacc as [Hfirst Hrest].
    rewrite (bind_normal _ _ _ _ _
               (unregister_accepted h m (conj Hfirst I))).
    rewrite IH by exact Hrest. simpl. unfold unregister_calls. simpl.
    rewrite <- app_assoc. reflexivity.
Qed.

(** With every local under its own identity and the scopes disjoint,
    [clearLocals] empties [locals] and leaves [globals] as it was. *)
Lemma clearLocals_accepted (m : Manager) :
  accepted (native_log m) (unregister_calls (Object_values (locals m))) ->
  scopes_disjoint m ->
  locals_keyed m ->
  clearLocals m =
  (Normal tt,
   {| globals := globals m;
      locals := ∅;
      root := root m;
      timeoutRecoverRoot := timeoutRecoverRoot m;
      timers := timers m;
      next_timer := next_timer m;
      native_log :=
        native_log m ++ unregister_calls (Object_values (locals m)) |}).
Proof.
  intros Hacc Hdisj Hkeyed. unfold clearLocals. run.
  rewrite unregister_all_accepted by exact Hacc. f_equal.
  assert (Hids : forall k,
    k ∈ id_of <$> Object_values (locals m) <-> is_Some (locals m !! k)).
  { intros k. rewrite list_elem_of_fmap. split.
    - intros (h & -> & Hh). apply elem_of_Object_values in Hh as [k' Hk'].
      rewrite <- (Hkeyed _ _ Hk') in Hk'. eauto.
    - intros [h Hh]. exists h. split; [symmetry; eauto|].
      apply elem_of_Object_values. eauto. }
  f_equal.
  - apply map_eq. intros k. rewrite lookup_forget.
    destruct (decide _) as [Hin|Hnin]; [|reflexivity].
    apply Hids in Hin as [h Hh]. symmetry.
    eapply map_disjoint_Some_r; eauto.
  - apply map_eq. intros k. rewrite lookup_forget, lookup_empty.
    destruct (decide _) as [Hin|Hnin]; [reflexivity|].
    apply eq_None_not_Some. intros Hsome. apply Hnin, Hids, Hsome.
Qed.

Lemma register_accepted (hotKey : HotKey) (m : Manager) :
  accepted (native_log m) (register_calls [hotKey]) ->
  locals m !! id_of hotKey = None ->
  globals m !! id_of hotKey = None ->
  register hotKey false m =
  (Normal tt,
   {| globals := globals m;
      locals := <[id_of hotKey := hotKey]> (locals m);
      root := root m;
      timeoutRecoverRoot := timeoutRecoverRoot m;
      timers := timers m;
      next_timer := next_timer m;
      native_log := native_log m ++ [NRegister (mods hotKey) (code hotKey)]
   |}).
Proof.
  intros [Hacc _] Hl Hg. simpl in Hacc. rewrite register_unfold, Hl, Hg.
  rewrite !bool_decide_eq_false_2 by (intros [? ?]; discriminate).
  cbv zeta. simpl orb. cbv iota. rewrite Hacc. reflexivity.
Qed.

Lemma register_all_accepted (hs : list HotKey) (m : Manager) :
  accepted (native_log m) (register_calls hs) ->
  NoDup (id_of <$> hs) ->
  (forall h, h ∈ hs -> locals m !! id_of h = None) ->
  (forall h, h ∈ hs -> globals m !! id_of h = None) ->
  for_of hs (fun hotKey => register hotKey false) m =
  (Normal tt,
   {| globals := globals m;
      locals := list_to_map (entries hs) ∪ locals m;
      root := root m;
      timeoutRecoverRoot := timeoutRecoverRoot m;
      timers := timers m;
      next_timer := next_timer m;
      native_log := native_log m ++ register_calls hs |}).
Proof.
  revert m. induction hs as [|h hs IH]; intros m Hacc Hnd Hl Hg; simpl.
  - unfold ret, register_calls. simpl.
    rewrite app_nil_r, (left_id_L ∅ (∪)). destruct m; reflexivity.
  - rewrite fmap_cons in Hnd. apply NoDup_cons in Hnd as [Hh Hnd].
    destruct Hacc as [Hfirst Hrest].
    rewrite (bind_normal _ _ _ _ _
               (register_accepted h m (conj Hfirst I)
                  (Hl h (list_elem_of_here _ _))
                  (Hg h (list_elem_of_here _ _)))).
    rewrite IH; simpl.
    + unfold register_calls. simpl. rewrite <- app_assoc. simpl.
      f_equal. f_equal.
      rewrite <- insert_union_r, insert_union_l; [reflexivity|].
      apply not_elem_of_list_to_map_1. rewrite entries_keys. exact Hh.
    + exact Hrest.
    + exact Hnd.
    + intros h' Hh'. rewrite lookup_insert_ne.
      * apply Hl, list_elem_of_further, Hh'.
      * intros Heq. apply Hh. rewrite Heq.
        apply list_elem_of_fmap. eauto.
    + intros h' Hh'. apply Hg, list_elem_of_further, Hh'.
Qed.

End Accepted.

(** ** What the operations do with any core *)

Lemma for_of_frame {S A V} (view : S -> V) (f : A -> Eff S unit) xs :
  (forall x s, view (f x s).2 = view s) ->
  forall s, view (for_of xs f s).2 = view s.
Proof.
  intros Hf. induction xs as [|x xs IH]; intros s; simpl; [reflexivity|].
  unfold bind. specialize (Hf x s).
  destruct (f x s) as [[[]|e] s']; simpl in *; [rewrite IH|]; exact Hf.
Qed.

Section AnyCore.
Context `{HotkCore}.

Lemma register_scheduling hotKey isGlobal m :
  scheduling (register hotKey isGlobal m).2 = scheduling m.
Proof.
  rewrite register_unfold. destruct (_ || _); [reflexivity|].
  cbv zeta. destruct (isOk _); [destruct isGlobal|]; reflexivity.
Qed.

Lemma unregister_scheduling hotKey m :
  scheduling (unregister hotKey m).2 = scheduling m.
Proof.
  rewrite unregister_unfold. cbv zeta. destruct (isOk _); reflexivity.
Qed.

Lemma unregister_returns hotKey m : (unregister hotKey m).1 = Normal tt.
Proof. rewrite unregister_unfold. reflexivity. Qed.

Lemma unregister_log hotKey m :
  native_log (unregister hotKey m).2
  = native_log m ++ [NUnregister (mods hotKey) (code hotKey)].
Proof.
  rewrite unregister_unfold. cbv zeta. destruct (isOk _); reflexivity.
Qed.

Lemma unregister_globals hotKey m :
  globals (unregister hotKey m).2 ⊆ globals m.
Proof.
  rewrite unregister_unfold. cbv zeta. destruct (isOk _); simpl.
  - apply delete_subseteq.
  - reflexivity.
Qed.

Lemma unregister_all_log hs m :
  native_log (for_of hs unregister m).2
  = native_log m ++ unregister_calls hs.
Proof.
  revert m. induction hs as [|h hs IH]; intros m; simpl.
  - unfold unregister_calls. simpl. rewrite app_nil_r. reflexivity.
  - unfold bind. pose proof (unregister_returns h m) as Hr.
    pose proof (unregister_log h m) as Hlog.
    destruct (unregister h m) as [[[]|e] m1]; simpl in *; [|discriminate].
    rewrite IH, Hlog. unfold unregister_calls. simpl.
    rewrite <- app_assoc. reflexivity.
Qed.

Lemma unregister_all_globals hs m :
  globals (for_of hs unregister m).2 ⊆ globals m.
Proof.
  revert m. induction hs as [|h hs IH]; intros m; simpl; [reflexivity|].
  unfold bind. pose proof (unregister_globals h m) as Hg.
  destruct (unregister h m) as [[[]|e] m1]; simpl in *; [|exact Hg].
  etrans; [apply IH | exact Hg].
Qed.

Lemma clearLocals_returns m : (clearLocals m).1 = Normal tt.
Proof.
  unfold clearLocals. run. apply for_of_returns. apply unregister_returns.
Qed.

Lemma clearLocals_scheduling m :
  scheduling (clearLocals m).2 = scheduling m.
Proof.
  unfold clearLocals. run.
  apply (for_of_frame scheduling). apply unregister_scheduling.
Qed.

Lemma clearLocals_log m :
  native_log (clearLocals m).2
  = native_log m ++ unregister_calls (Object_values (locals m)).
Proof. unfold clearLocals. run. apply unregister_all_log. Qed.

Lemma clearLocals_globals m : globals (clearLocals m).2 ⊆ globals m.
Proof. unfold clearLocals. run. apply unregister_all_globals. Qed.

Lemma register_all_scheduling hs m :
  scheduling (for_of hs (fun hotKey => register hotKey false) m).2
  = scheduling m.
Proof.
  apply (for_of_frame scheduling). intros. apply register_scheduling.
Qed.

(** A registration that returns has asked the core exactly once, and a
    local registration adds nothing to [globals]. *)
Lemma register_local_returned hotKey m m' :
  register hotKey false m = (Normal tt, m') ->
  native_log m' = native_log m ++ [NRegister (mods hotKey) (code hotKey)]
  /\ globals m' = globals m.
Proof.
  rewrite register_unfold. destruct (_ || _); [discriminate|].
  cbv zeta. intros [= <-]. destruct (isOk _); split; reflexivity.
Qed.

Lemma register_all_returned hs m m' :
  for_of hs (fun hotKey => register hotKey false) m = (Normal tt, m') ->
  native_log m' = native_log m ++ register_calls hs
  /\ globals m' = globals m.
Proof.
  revert m. induction hs as [|h hs IH]; intros m; simpl.
  - intros [= <-]. unfold register_calls. simpl.
    rewrite app_nil_r. split; reflexivity.
  - unfold bind.
    destruct (register h false m) as [[[]|e] m1] eqn:Hreg; [|discriminate].
    intros Hrest. apply register_local_returned in Hreg as [Hlog Hg].
    apply IH in Hrest as [Hlog' Hg'].
    rewrite Hlog', Hlog, Hg', Hg. unfold register_calls. simpl.
    rewrite <- app_assoc. split; reflexivity.
Qed.

Lemma recoverRoot_unfold m snapshot :
  root m = Some snapshot ->
  recoverRoot m =
  match for_of snapshot (fun hotKey => register hotKey false)
          (clearLocals (cleared m)).2 with
  | (Normal _, m3) =>
      (Normal tt, set_timeoutRecoverRoot None (set_root None m3))
  | (Thrown e, m3) => (Thrown e, m3)
  end.
Proof.
  intros Hroot. unfold recoverRoot, cleared. run. rewrite Hroot.
  destruct (timeoutRecoverRoot m) as [h|]; simpl.
  - match goal with |- context [clearLocals ?s] =>
      pose proof (clearLocals_returns s) as Hr;
      destruct (clearLocals s) as [[[]|e] m2] end;
      simpl in *; [|discriminate].
    destruct (for_of snapshot _ m2) as [[[]|e] m3]; reflexivity.
  - match goal with |- context [clearLocals ?s] =>
      pose proof (clearLocals_returns s) as Hr;
      destruct (clearLocals s) as [[[]|e] m2] end;
      simpl in *; [|discriminate].
    destruct (for_of snapshot _ m2) as [[[]|e] m3]; reflexivity.
Qed.

Lemma recoverRoot_at_root m :
  root m = None -> recoverRoot m = (Normal tt, m).
Proof. intros Hroot. unfold recoverRoot. run. rewrite Hroot. reflexivity. Qed.

Lemma withSnapshot_unfold hotKeys timeout m :
  withSnapshot hotKeys timeout m =
  match for_of hotKeys (fun hotKey => register hotKey false)
          (clearLocals (snapshotted (cleared m))).2 with
  | (Normal _, m4) => (Normal tt, scheduled timeout m4)
  | (Thrown e, m4) => (Thrown e, m4)
  end.
Proof.
  unfold withSnapshot, cleared, snapshotted, scheduled, setTimeout. run.
  destruct (timeoutRecoverRoot m) as [h|]; simpl.
  - destruct (root m); simpl;
      match goal with |- context [clearLocals ?s] =>
        pose proof (clearLocals_returns s) as Hr;
        destruct (clearLocals s) as [[[]|e] m2] end;
      simpl in *; try discriminate;
      destruct (for_of hotKeys _ m2) as [[[]|e] m3]; try reflexivity;
      destruct (isNaN timeout); reflexivity.
  - destruct (root m); simpl;
      match goal with |- context [clearLocals ?s] =>
        pose proof (clearLocals_returns s) as Hr;
        destruct (clearLocals s) as [[[]|e] m2] end;
      simpl in *; try discriminate;
      destruct (for_of hotKeys _ m2) as [[[]|e] m3]; try reflexivity;
      destruct (isNaN timeout); reflexivity.
Qed.

End AnyCore.

Section Contexts.
Context `{HotkCore}.

Lemma cleared_fields m :
  globals (cleared m) = globals m
  /\ locals (cleared m) = locals m
  /\ root (cleared m) = root m
  /\ timeoutRecoverRoot (cleared m) = timeoutRecoverRoot m
  /\ next_timer (cleared m) = next_timer m
  /\ native_log (cleared m) = native_log m.
Proof.
  unfold cleared. destruct (timeoutRecoverRoot m) eqn:Hheld; simpl;
    rewrite ?Hheld; repeat split; reflexivity.
Qed.

Lemma cleared_timers m :
  timers (cleared m) =
  match timeoutRecoverRoot m with
  | Some h => filter (fun t => t.1 ≠ h) (timers m)
  | None => timers m
  end.
Proof. unfold cleared. destruct (timeoutRecoverRoot m); reflexivity. Qed.

(** With at most one timer outstanding, clearing the held handle leaves
    none. *)
Lemma cleared_no_timer m : one_timer m -> timers (cleared m) = [].
Proof.
  intros [Hnone | (h & d & Hone & Hheld)]; rewrite cleared_timers.
  - rewrite Hnone. destruct (timeoutRecoverRoot m); reflexivity.
  - rewrite Hheld, Hone. rewrite filter_cons_False; [reflexivity|].
    simpl. intros Hne. apply Hne. reflexivity.
Qed.

Lemma scheduled_fields timeout m :
  locals (scheduled timeout m) = locals m
  /\ globals (scheduled timeout m) = globals m
  /\ root (scheduled timeout m) = root m
  /\ native_log (scheduled timeout m) = native_log m.
Proof.
  unfold scheduled. destruct (negb (isNaN timeout)); simpl;
    repeat split; reflexivity.
Qed.

Lemma lookup_entries (hs : list HotKey) (k : N) (c : HotKey) :
  NoDup (id_of <$> hs) ->
  (list_to_map (entries hs) : gmap N HotKey) !! k = Some c
  <-> c ∈ hs /\ id_of c = k.
Proof.
  intros Hnd. split.
  - intros Hk. apply elem_of_list_to_map_2 in Hk.
    apply list_elem_of_fmap in Hk as (c' & [= -> ->] & Hc'). auto.
  - intros [Hc <-]. apply elem_of_list_to_map_1.
    + rewrite entries_keys. exact Hnd.
    + apply list_elem_of_fmap. eauto.
Qed.

Lemma withSnapshot_accepted children timeout m :
  accepted (native_log m)
    (unregister_calls (Object_values (locals m)) ++ register_calls children) ->
  scopes_disjoint m ->
  locals_keyed m ->
  NoDup (id_of <$> children) ->
  (forall c, c ∈ children -> globals m !! id_of c = None) ->
  withSnapshot children timeout m =
  (Normal tt,
   scheduled timeout
     {| globals := globals m;
        locals := list_to_map (entries children);
        root := Some match root m with
                     | Some r => r
                     | None => Object_values (locals m)
                     end;
        timeoutRecoverRoot := timeoutRecoverRoot m;
        timers := timers (cleared m);
        next_timer := next_timer m;
        native_log :=
          native_log m ++ unregister_calls (Object_values (locals m))
                       ++ register_calls children |}).
Proof.
  intros Hacc Hdisj Hkeyed Hnd Hfresh. rewrite withSnapshot_unfold.
  apply accepted_app in Hacc as [Hunreg Hreg].
  destruct (cleared_fields m) as (Hg & Hl & Hr & Ht & Hn & Hlog).
  set (m2 := snapshotted (cleared m)).
  assert (Hg2 : globals m2 = globals m).
  { unfold m2, snapshotted. destruct (root (cleared m)); simpl; exact Hg. }
  assert (Hl2 : locals m2 = locals m).
  { unfold m2, snapshotted. destruct (root (cleared m)); simpl; exact Hl. }
  assert (Hlog2 : native_log m2 = native_log m).
  { unfold m2, snapshotted. destruct (root (cleared m)); simpl; exact Hlog. }
  rewrite (clearLocals_accepted m2);
    [|rewrite Hlog2, Hl2; exact Hunreg
     |unfold scopes_disjoint; rewrite Hg2, Hl2; exact Hdisj
     |unfold locals_keyed; rewrite Hl2; exact Hkeyed].
  simpl. rewrite register_all_accepted; simpl; try assumption.
  - rewrite (right_id_L ∅ (∪)), Hg2, Hl2, Hlog2, <- app_assoc.
    f_equal. f_equal.
    unfold m2, snapshotted. rewrite Hr, Hl.
    destruct (root m) eqn:Hroot; simpl; rewrite ?Hr, ?Ht, ?Hn, ?Hlog;
      reflexivity.
  - rewrite Hlog2, Hl2. exact Hreg.
  - intros c _. apply lookup_empty.
  - intros c Hc. rewrite Hg2. apply Hfresh, Hc.
Qed.

Lemma recoverRoot_accepted m snapshot :
  accepted (native_log m)
    (unregister_calls (Object_values (locals m)) ++ register_calls snapshot) ->
  scopes_disjoint m ->
  locals_keyed m ->
  root m = Some snapshot ->
  NoDup (id_of <$> snapshot) ->
  (forall h, h ∈ snapshot -> globals m !! id_of h = None) ->
  recoverRoot m =
  (Normal tt,
   {| globals := globals m;
      locals := list_to_map (entries snapshot);
      root := None;
      timeoutRecoverRoot := None;
      timers := timers (cleared m);
      next_timer := next_timer m;
      native_log :=
        native_log m ++ unregister_calls (Object_values (locals m))
                     ++ register_calls snapshot |}).
Proof.
  intros Hacc Hdisj Hkeyed Hroot Hnd Hfresh.
  rewrite (recoverRoot_unfold m snapshot Hroot).
  apply accepted_app in Hacc as [Hunreg Hreg].
  destruct (cleared_fields m) as (Hg & Hl & Hr & Ht & Hn & Hlog).
  rewrite (clearLocals_accepted (cleared m));
    [|rewrite Hlog, Hl; exact Hunreg
     |unfold scopes_disjoint; rewrite Hg, Hl; exact Hdisj
     |unfold locals_keyed; rewrite Hl; exact Hkeyed].
  simpl. rewrite register_all_accepted; simpl; try assumption.
  - rewrite (right_id_L ∅ (∪)), Hg, Hl, Hn, Hlog, <- app_assoc.
    reflexivity.
  - rewrite Hlog, Hl. exact Hreg.
  - intros h _. apply lookup_empty.
  - intros h Hh. rewrite Hg. apply Hfresh, Hh.
Qed.

(** C6.  When the native core accepts the calls made, each under the
    computed identity, the scopes are disjoint with every local under
    its identity, and the children have pairwise distinct identities
    none of which is held by a global: entering the subaction context
    returns, asks the core to unregister each previous local and to
    register each child, leaves exactly the children in [locals],
    leaves [globals] as it was, and takes the previous locals as root
    snapshot only if there was no snapshot. *)
Theorem subaction_context_replaces_locals children timeout m :
  accepted (native_log m)
    (unregister_calls (Object_values (locals m)) ++ register_calls children) ->
  scopes_disjoint m ->
  locals_keyed m ->
  NoDup (id_of <$> children) ->
  (forall c, c ∈ children -> globals m !! id_of c = None) ->
  exists m',
    withSnapshot children timeout m = (Normal tt, m')
    /\ locals m' = list_to_map (entries children)
    /\ (forall k c, locals m' !! k = Some c <-> c ∈ children /\ id_of c = k)
    /\ globals m' = globals m
    /\ root m' = Some match root m with
                      | Some r => r
                      | None => Object_values (locals m)
                      end
    /\ native_log m' =
       native_log m ++ unregister_calls (Object_values (locals m))
                    ++ register_calls children.
Proof.
  intros Hacc Hdisj Hkeyed Hnd Hfresh. eexists.
  rewrite withSnapshot_accepted by assumption.
  split; [reflexivity|].
  match goal with |- context [scheduled timeout ?b] =>
    destruct (scheduled_fields timeout b) as (-> & -> & -> & ->) end.
  simpl. split; [reflexivity|].
  split; [intros k c; apply lookup_entries, Hnd|].
  repeat split; reflexivity.
Qed.

End Contexts.

Section RootRecovery.
Context `{HotkCore}.

Lemma scheduling_fields m m' :
  scheduling m' = scheduling m ->
  root m' = root m
  /\ timeoutRecoverRoot m' = timeoutRecoverRoot m
  /\ timers m' = timers m
  /\ next_timer m' = next_timer m.
Proof. unfold scheduling. intros [= -> -> -> ->]. repeat split. Qed.

(** What a call of [recoverRoot] that returns has done, for any core. *)
Lemma recoverRoot_returned m snapshot m' :
  root m = Some snapshot ->
  recoverRoot m = (Normal tt, m') ->
  native_log m' =
    native_log m ++ unregister_calls (Object_values (locals m))
                 ++ register_calls snapshot
  /\ globals m' ⊆ globals m
  /\ root m' = None
  /\ timeoutRecoverRoot m' = None
  /\ timers m' = timers (cleared m).
Proof.
  intros Hroot. rewrite (recoverRoot_unfold m snapshot Hroot).
  destruct (for_of snapshot _ _) as [[[]|e] m3] eqn:Hreg; [|discriminate].
  intros [= <-]. simpl.
  pose proof (register_all_scheduling snapshot (clearLocals (cleared m)).2)
    as Hs3.
  rewrite Hreg in Hs3. simpl in Hs3.
  rewrite clearLocals_scheduling in Hs3.
  apply scheduling_fields in Hs3 as (_ & _ & Ht3 & _).
  apply register_all_returned in Hreg as [Hlog Hg].
  rewrite clearLocals_log in Hlog.
  destruct (cleared_fields m) as (Hgc & Hlc & _ & _ & _ & Hlogc).
  rewrite Hlc, Hlogc, <- app_assoc in Hlog.
  repeat split; try assumption.
  rewrite Hg, <- Hgc. apply clearLocals_globals.
Qed.

(** C7.  (i) With no snapshot pending [recoverRoot] returns
    the state it was given: no native call, no change.  (ii) With a
    snapshot pending, a call that returns has asked the core to
    unregister each current local and then to register each snapshotted
    definition, in this order and nothing else, has added nothing to
    [globals], has cleared the snapshot and the timer (the handle held
    is no longer outstanding); a second call then changes nothing.
    (iii) When moreover the core accepts the calls made, each under
    the computed identity, the scopes are disjoint with every local under
    its identity, and the snapshotted identities are pairwise distinct and
    held by no global, the call returns and leaves exactly the
    snapshotted definitions in [locals]. *)
Theorem recoverRoot_idempotent (m : Manager) :
  (root m = None -> recoverRoot m = (Normal tt, m))
  /\ (forall snapshot m',
        root m = Some snapshot ->
        recoverRoot m = (Normal tt, m') ->
        native_log m' =
          native_log m ++ unregister_calls (Object_values (locals m))
                       ++ register_calls snapshot
        /\ globals m' ⊆ globals m
        /\ root m' = None
        /\ timeoutRecoverRoot m' = None
        /\ (forall h, timeoutRecoverRoot m = Some h -> h ∉ (timers m').*1)
        /\ recoverRoot m' = (Normal tt, m'))
  /\ (forall snapshot,
        accepted (native_log m)
          (unregister_calls (Object_values (locals m))
           ++ register_calls snapshot) ->
        scopes_disjoint m ->
        locals_keyed m ->
        root m = Some snapshot ->
        NoDup (id_of <$> snapshot) ->
        (forall h, h ∈ snapshot -> globals m !! id_of h = None) ->
        exists m',
          recoverRoot m = (Normal tt, m')
          /\ locals m' = list_to_map (entries snapshot)
          /\ globals m' = globals m).
Proof.
  split; [apply recoverRoot_at_root|]. split.
  - intros snapshot m' Hroot Hret.
    destruct (recoverRoot_returned m snapshot m' Hroot Hret)
      as (Hlog & Hg & Hr & Ht & Hts).
    repeat split; try assumption.
    + intros h Hheld Hin. rewrite Hts, cleared_timers, Hheld in Hin.
      apply list_elem_of_fmap in Hin as ([h' d] & -> & Hin).
      apply list_elem_of_filter in Hin as [Hne _]. apply Hne. reflexivity.
    + apply recoverRoot_at_root, Hr.
  - intros snapshot Hacc Hdisj Hkeyed Hroot Hnd Hfresh. eexists.
    rewrite (recoverRoot_accepted m snapshot) by assumption.
    repeat split.
Qed.

End RootRecovery.

Section RevertTimer.
Context `{HotkCore} `{UserCode}.

Lemma one_timer_frame m m' :
  scheduling m' = scheduling m -> one_timer m -> one_timer m'.
Proof.
  intros Hs. apply scheduling_fields in Hs as (_ & Ht & Hts & _).
  unfold one_timer. rewrite Ht, Hts. tauto.
Qed.

Lemma no_timer_frame m m' :
  scheduling m' = scheduling m -> no_timer m -> no_timer m'.
Proof.
  intros Hs. apply scheduling_fields in Hs as (_ & _ & Hts & _).
  unfold no_timer. rewrite Hts. tauto.
Qed.

Lemma no_timer_one_timer m : no_timer m -> one_timer m.
Proof. intros Hm. left. exact Hm. Qed.

Lemma register_keeps_one_timer hotKey isGlobal :
  hoare one_timer (register hotKey isGlobal) one_timer.
Proof. intros m. apply one_timer_frame, register_scheduling. Qed.

Lemma unregister_keeps_one_timer hotKey :
  hoare one_timer (unregister hotKey) one_timer.
Proof. intros m. apply one_timer_frame, unregister_scheduling. Qed.

Lemma recoverRoot_keeps_one_timer : hoare one_timer recoverRoot one_timer.
Proof.
  intros m Hm. destruct (root m) as [snapshot|] eqn:Hroot.
  - rewrite (recoverRoot_unfold m snapshot Hroot).
    pose proof (register_all_scheduling snapshot (clearLocals (cleared m)).2)
      as Hs.
    rewrite clearLocals_scheduling in Hs.
    pose proof (no_timer_frame _ _ Hs (cleared_no_timer m Hm)) as Hnone.
    destruct (for_of snapshot _ _) as [[[]|e] m3]; left; exact Hnone.
  - rewrite recoverRoot_at_root by exact Hroot. exact Hm.
Qed.

(** The timers after [withSnapshot]: none if it throws or the timeout is
    [NaN], otherwise the one just started, whose handle is held. *)
Lemma withSnapshot_timers hotKeys timeout m :
  one_timer m ->
  match (withSnapshot hotKeys timeout m).1 with
  | Normal _ =>
      if isNaN timeout
      then timers (withSnapshot hotKeys timeout m).2 = []
      else timers (withSnapshot hotKeys timeout m).2
           = [(next_timer m, Math_min timeout (Fin TIMEOUT_MAX))]
           /\ timeoutRecoverRoot (withSnapshot hotKeys timeout m).2
              = Some (next_timer m)
  | Thrown _ => timers (withSnapshot hotKeys timeout m).2 = []
  end.
Proof.
  intros Hm. rewrite withSnapshot_unfold.
  pose proof (register_all_scheduling hotKeys
                (clearLocals (snapshotted (cleared m))).2) as Hs.
  rewrite clearLocals_scheduling in Hs.
  apply scheduling_fields in Hs as (_ & _ & Hts & Hn).
  assert (Hts2 : timers (snapshotted (cleared m)) = []).
  { unfold snapshotted. destruct (root (cleared m)); simpl;
      apply cleared_no_timer, Hm. }
  assert (Hn2 : next_timer (snapshotted (cleared m)) = next_timer m).
  { destruct (cleared_fields m) as (_ & _ & _ & _ & Hnc & _).
    unfold snapshotted. destruct (root (cleared m)); simpl; exact Hnc. }
  rewrite Hts2 in Hts. rewrite Hn2 in Hn.
  destruct (for_of hotKeys _ _) as [[[]|e] m4]; simpl in *; [|exact Hts].
  unfold scheduled. destruct (isNaN timeout); simpl; [exact Hts|].
  rewrite Hts, Hn. split; reflexivity.
Qed.

Lemma withSnapshot_keeps_one_timer hotKeys timeout :
  hoare one_timer (withSnapshot hotKeys timeout) one_timer.
Proof.
  intros m Hm. pose proof (withSnapshot_timers hotKeys timeout m Hm) as Hts.
  destruct (withSnapshot hotKeys timeout m).1; [|left; exact Hts].
  destruct (isNaN timeout); [left; exact Hts|].
  right. destruct Hts as [Hts Hheld]. eauto.
Qed.

(** When the only outstanding timer expires it is gone, and its
    callback is [manager.recoverRoot()]. *)
Lemma timer_expires_unfold handle m :
  one_timer m ->
  handle ∈ (timers m).*1 ->
  timer_expires handle m = recoverRoot (set_timers [] (next_timer m) m).
Proof.
  intros Hm Hin. unfold timer_expires. run.
  rewrite bool_decide_eq_true_2 by exact Hin.
  destruct Hm as [Hnone | (h & d & Hone & Hheld)].
  - rewrite Hnone in Hin. apply not_elem_of_nil in Hin. destruct Hin.
  - rewrite Hone in Hin. simpl in Hin.
    apply list_elem_of_singleton in Hin as ->.
    rewrite Hone. rewrite filter_cons_False; [reflexivity|].
    simpl. intros Hne. apply Hne. reflexivity.
Qed.

Lemma timer_expires_keeps_one_timer handle :
  hoare one_timer (timer_expires handle) one_timer.
Proof.
  intros m Hm. destruct (decide (handle ∈ (timers m).*1)) as [Hin|Hnin].
  - rewrite timer_expires_unfold by assumption.
    apply recoverRoot_keeps_one_timer. left. reflexivity.
  - unfold timer_expires. run.
    rewrite bool_decide_eq_false_2 by exact Hnin. exact Hm.
Qed.

Lemma handleEvent_keeps_one_timer now event :
  (forall k, hoare one_timer (callback k) one_timer) ->
  hoare (fun w => one_timer (mgr w)) (handleEvent now event)
        (fun w => one_timer (mgr w)).
Proof.
  intros Hcb. unfold handleEvent. apply hoare_get_inv. intros w0. cbv zeta.
  destruct (eventType event); [|apply hoare_ret].
  destruct (match globals (mgr w0) !! id event with
            | Some h => Some h
            | None => locals (mgr w0) !! id event
            end) as [this|]; [|apply hoare_ret].
  unfold fire. apply hoare_get_inv. intros w1. cbv zeta.
  apply hoare_seq; [|intros _; apply hoare_modify; intros w Hw; exact Hw].
  destruct (_ || _); [|apply hoare_modify; intros w Hw; exact Hw].
  apply hoare_seq; [apply hoare_modify; intros w Hw; exact Hw|intros _].
  apply hoare_seq.
  - unfold call_action.
    apply hoare_seq; [apply hoare_modify; intros w Hw; exact Hw|intros _].
    destruct (_action this) as [|k]; [apply hoare_ret|].
    apply (lift_hoare one_timer one_timer), Hcb.
  - intros _. apply (lift_hoare one_timer one_timer).
    unfold fireSubactions. destruct (_ =? _)%nat.
    + apply recoverRoot_keeps_one_timer.
    + apply withSnapshot_keeps_one_timer.
Qed.

(** The delay handed to [setTimeout] never exceeds 2147483647 ms. *)
Lemma delay_clamped timeout :
  match Math_min timeout (Fin TIMEOUT_MAX) with
  | Fin d => d <= 2147483647
  | PosInfinity => False
  | NegInfinity => timeout = NegInfinity
  | NaN => timeout = NaN
  end.
Proof.
  destruct timeout as [z| | |]; simpl; try reflexivity;
    unfold TIMEOUT_MAX; lia.
Qed.

Lemma entries_keyed (hs : list HotKey) (k : N) (h : HotKey) :
  (list_to_map (entries hs) : gmap N HotKey) !! k = Some h -> id_of h = k.
Proof.
  intros Hk. apply elem_of_list_to_map_2 in Hk.
  apply list_elem_of_fmap in Hk as (h' & [= -> ->] & _). reflexivity.
Qed.

Lemma entries_fresh (hs : list HotKey) (g : gmap N HotKey) :
  (forall h, h ∈ hs -> g !! id_of h = None) ->
  g ##ₘ list_to_map (entries hs).
Proof.
  intros Hfresh. apply map_disjoint_spec. intros k x y Hx Hy.
  apply elem_of_list_to_map_2 in Hy.
  apply list_elem_of_fmap in Hy as (h' & [= -> ->] & Hin).
  rewrite (Hfresh _ Hin) in Hx. discriminate.
Qed.

(** A descent whose timer expires before any child fires ends where it
    began. *)
Lemma descent_then_expiry children timeout m :
  accepted (native_log m) (round_trip_calls (locals m) children) ->
  scopes_disjoint m ->
  locals_keyed m ->
  one_timer m ->
  root m = None ->
  NoDup (id_of <$> children) ->
  (forall c, c ∈ children -> globals m !! id_of c = None) ->
  isNaN timeout = false ->
  exists m1 m2,
    withSnapshot children timeout m = (Normal tt, m1)
    /\ timers m1 = [(next_timer m, Math_min timeout (Fin TIMEOUT_MAX))]
    /\ timer_expires (next_timer m) m1 = (Normal tt, m2)
    /\ locals m2 = locals m
    /\ globals m2 = globals m
    /\ root m2 = None
    /\ timeoutRecoverRoot m2 = None
    /\ timers m2 = [].
Proof.
  intros Hacc Hdisj Hkeyed Hone Hroot Hnd Hfresh Hnan.
  unfold round_trip_calls in Hacc.
  rewrite (app_assoc (unregister_calls _)) in Hacc.
  apply accepted_app in Hacc as [Hdown Hup].
  pose proof (withSnapshot_accepted children timeout m
                Hdown Hdisj Hkeyed Hnd Hfresh) as Hdescent.
  rewrite (cleared_no_timer m Hone), Hroot in Hdescent.
  unfold scheduled in Hdescent. rewrite Hnan in Hdescent.
  simpl in Hdescent.
  eexists _, _. split; [exact Hdescent|]. split; [reflexivity|].
  rewrite timer_expires_unfold;
    [|right; simpl; eauto | simpl; apply list_elem_of_here].
  rewrite (recoverRoot_accepted _ (Object_values (locals m))); simpl.
  - rewrite (entries_Object_values (locals m) Hkeyed).
    repeat split; reflexivity.
  - exact Hup.
  - apply entries_fresh, Hfresh.
  - intros k h. apply entries_keyed.
  - reflexivity.
  - apply NoDup_ids_Object_values, Hkeyed.
  - intros h Hh. apply elem_of_Object_values in Hh as [k Hk].
    rewrite (Hkeyed _ _ Hk). eapply map_disjoint_Some_r; eauto.
Qed.

(** C9.  (1) At most one revert timer is outstanding: this
    holds at start-up and is kept by every manager operation, by the
    expiry of the timer, and by [handleEvent] when the callbacks keep
    it.  (2) Entering a subaction context cancels the timer held; when
    it returns it has started a new one exactly when the timeout is not
    [NaN] (so also for an infinite timeout), and when it throws none is
    outstanding.  (3) The delay of the new timer is the timeout clamped
    to 2147483647 ms.  (4) The expiry of the timer is a
    [recoverRoot()]; after a descent from the root context, with a core
    that accepts the calls made, it brings back the locals and globals
    from before the descent. *)
Theorem revert_timer_discipline :
  (one_timer initial_manager
   /\ (forall hotKey isGlobal,
         hoare one_timer (register hotKey isGlobal) one_timer)
   /\ (forall hotKey, hoare one_timer (unregister hotKey) one_timer)
   /\ hoare one_timer recoverRoot one_timer
   /\ (forall hotKeys timeout,
         hoare one_timer (withSnapshot hotKeys timeout) one_timer)
   /\ (forall handle, hoare one_timer (timer_expires handle) one_timer)
   /\ ((forall k, hoare one_timer (callback k) one_timer) ->
       forall now event,
         hoare (fun w => one_timer (mgr w)) (handleEvent now event)
               (fun w => one_timer (mgr w))))
  /\ (forall hotKeys timeout m,
        one_timer m ->
        match (withSnapshot hotKeys timeout m).1 with
        | Normal _ =>
            if isNaN timeout
            then timers (withSnapshot hotKeys timeout m).2 = []
            else timers (withSnapshot hotKeys timeout m).2
                 = [(next_timer m, Math_min timeout (Fin TIMEOUT_MAX))]
                 /\ timeoutRecoverRoot (withSnapshot hotKeys timeout m).2
                    = Some (next_timer m)
        | Thrown _ => timers (withSnapshot hotKeys timeout m).2 = []
        end)
  /\ (forall timeout,
        match Math_min timeout (Fin TIMEOUT_MAX) with
        | Fin d => d <= 2147483647
        | PosInfinity => False
        | NegInfinity => timeout = NegInfinity
        | NaN => timeout = NaN
        end)
  /\ (forall handle m,
        one_timer m ->
        handle ∈ (timers m).*1 ->
        timer_expires handle m
        = recoverRoot (set_timers [] (next_timer m) m))
  /\ (forall children timeout m,
        accepted (native_log m) (round_trip_calls (locals m) children) ->
        scopes_disjoint m ->
        locals_keyed m ->
        one_timer m ->
        root m = None ->
        NoDup (id_of <$> children) ->
        (forall c, c ∈ children -> globals m !! id_of c = None) ->
        isNaN timeout = false ->
        exists m1 m2,
          withSnapshot children timeout m = (Normal tt, m1)
          /\ timers m1
             = [(next_timer m, Math_min timeout (Fin TIMEOUT_MAX))]
          /\ timer_expires (next_timer m) m1 = (Normal tt, m2)
          /\ locals m2 = locals m
          /\ globals m2 = globals m
          /\ root m2 = None
          /\ timeoutRecoverRoot m2 = None
          /\ timers m2 = []).
Proof.
  split.
  { split; [left; reflexivity|].
    split; [apply register_keeps_one_timer|].
    split; [apply unregister_keeps_one_timer|].
    split; [apply recoverRoot_keeps_one_timer|].
    split; [apply withSnapshot_keeps_one_timer|].
    split; [apply timer_expires_keeps_one_timer|].
    intros Hcb now event. apply handleEvent_keeps_one_timer, Hcb. }
  split; [apply withSnapshot_timers|].
  split; [apply delay_clamped|].
  split; [apply timer_expires_unfold|].
  apply descent_then_expiry.
Qed.

End RevertTimer.

Section BuilderProperties.

(** C10. [global(v)] empties the subaction list for either value of
    [v]; so whenever [subaction(c)] is accepted (the hotkey is not
    global), following it by [global(false)] gives a hotkey that is not
    global and has no children. *)
Theorem global_clears_subactions (value : bool) (this c : HotKey) :
  _subactions (Builder.global value this) = []
  /\ _global (Builder.global value this) = value
  /\ match Builder.subaction c this with
     | Normal this' =>
         _subactions this' = _subactions this ++ [c]
         /\ _subactions (Builder.global false this') = []
         /\ _global (Builder.global false this') = false
     | Thrown _ => _global this = true
     end.
Proof.
  split; [reflexivity|]. split; [reflexivity|].
  unfold Builder.subaction. destruct (_global this); simpl; auto.
Qed.

Lemma ctrlA_with_built (child : HotKey) :
  Builder.subaction child ctrlA = Normal (ctrlA_with child).
Proof. reflexivity. Qed.

End BuilderProperties.

Section BackToRoot.
Context `{HotkCore}.

(** [fireSubactions] never reads [_backToRoot]. *)
Lemma fireSubactions_ignores_backToRoot (value : bool) (this : HotKey) :
  fireSubactions (Builder.backToRoot value this) = fireSubactions this.
Proof. reflexivity. Qed.

Lemma fireSubactions_without_children (this : HotKey) :
  _subactions this = [] -> fireSubactions this = recoverRoot.
Proof. intros Hnone. unfold fireSubactions. rewrite Hnone. reflexivity. Qed.

End BackToRoot.

(** ** The properties on the examples *)

(** C1.  [keyB_staying] was configured with [backToRoot(false)] and has no
    children.  Pressed in the descended context it fires, and the root is
    recovered all the same: the snapshot is gone, [keyB_staying] is no
    longer local and the parent is local again. *)
Theorem backToRoot_false_still_recovers :
  _backToRoot keyB_staying = false
  /\ _subactions keyB_staying = []
  /\ root (mgr descended_world) = Some [ctrlA_with keyB_staying]
  /\ locals (mgr descended_world) !! id_of (H := willing_core) keyB_staying
     = Some keyB_staying
  /\ let after :=
       finish (handleEvent (H := willing_core) (H0 := quiet_code) 5200
                 (pressed (H := willing_core) keyB_staying) descended_world) in
     fired after = [Noop; Noop]
     /\ root (mgr after) = None
     /\ locals (mgr after) !! id_of (H := willing_core) keyB_staying = None
     /\ locals (mgr after)
          !! id_of (H := willing_core) (ctrlA_with keyB_staying)
        = Some (ctrlA_with keyB_staying).
Proof. vm_compute. repeat split. Qed.

Lemma willing_core_accepts : accepts_every_call (H := willing_core).
Proof. intros log ms c. split; reflexivity. Qed.

Lemma willing_core_reports : reports_computed_id (H := willing_core).
Proof. intros log ms c _. reflexivity. Qed.

Lemma rooted_manager_consistent :
  scopes_disjoint rooted_manager
  /\ locals_keyed (H := willing_core) rooted_manager.
Proof.
  pose (m1 := finish (register (H := willing_core) escape_global true
                        initial_manager)).
  split.
  - assert (H1 : scopes_disjoint m1).
    { apply (register_keeps_disjoint (H := willing_core) willing_core_reports
               escape_global true initial_manager).
      apply map_disjoint_empty_l. }
    exact (register_keeps_disjoint (H := willing_core) willing_core_reports
             (ctrlA_with keyB) false m1 H1).
  - assert (H1 : locals_keyed (H := willing_core) m1).
    { apply (register_keeps_keyed (H := willing_core) willing_core_reports
               escape_global true initial_manager).
      intros k h Hk. simpl in Hk. rewrite lookup_empty in Hk. discriminate. }
    exact (register_keeps_keyed (H := willing_core) willing_core_reports
             (ctrlA_with keyB) false m1 H1).
Qed.

Lemma descended_manager_consistent :
  scopes_disjoint descended_manager
  /\ locals_keyed (H := willing_core) descended_manager.
Proof.
  destruct rooted_manager_consistent as [Hd Hk]. split.
  - exact (withSnapshot_keeps (H := willing_core) scopes_disjoint
             disjoint_scopes
             (register_keeps_disjoint willing_core_reports)
             unregister_keeps_disjoint [keyB; keyZ] (Fin 1000)
             rooted_manager Hd).
  - exact (withSnapshot_keeps (H := willing_core) locals_keyed
             keyed_scopes
             (register_keeps_keyed willing_core_reports)
             unregister_keeps_keyed [keyB; keyZ] (Fin 1000)
             rooted_manager Hk).
Qed.



Lemma single_stroke_fires_witness :
  let w := set_mgr descended_manager initial_world in
  let after := @firing willing_core busy_code ctrlA_acting w in
  _stroke ctrlA_acting = Single
  /\ _action ctrlA_acting = Callback 1
  /\ fire (H := willing_core) (H0 := busy_code) 5000 ctrlA_acting w = after
  /\ fired after.2 = [Callback 1]
  /\ lastFire after.2 = never
  /\ after.1 = Normal tt
  /\ lastHotKey after.2 = Some ctrlA_acting
  /\ native_log (mgr after.2)
     = native_log descended_manager
       ++ [NUnregister [] "KeyZ"; NUnregister [] "KeyB";
           NRegister ["Control"%string] "KeyA"].
Proof.
  intros w after.
  destruct (@single_stroke_fires willing_core busy_code 5000 ctrlA_acting
              w eq_refl) as (Hfire & Hfired & Hnever & Hlast & _).
  assert (Hret : after.1 = Normal tt) by (vm_compute; reflexivity).
  split; [reflexivity|]. split; [reflexivity|]. split; [exact Hfire|].
  split; [exact Hfired|]. split; [exact Hnever|]. split; [exact Hret|].
  split; [exact (Hlast Hret)|].
  vm_compute. reflexivity.
Defined.

(** A Single-stroke press at time 5000 leaves [never], not 5000, in
    [lastFire]; and when entering the children's context throws (here the
    child collides with a global), the hotkey is not recorded as the last
    one. *)
Lemma single_stroke_records_neither_now_nor_always_last :
  (let after :=
     finish (fire (H := willing_core) (H0 := quiet_code) 5000 ctrlA
               initial_world) in
   _stroke ctrlA = Single
   /\ fired after = [Noop]
   /\ lastFire after = never
   /\ lastFire after <> 5000)
  /\ (let parent := ctrlA_with escape_local in
      let before :=
        finish (lift (HotKey_register (H := willing_core) escape_global >>>
                      HotKey_register (H := willing_core) parent)
                  initial_world) in
      let result :=
        handleEvent (H := willing_core) (H0 := quiet_code) 5000
          (pressed (H := willing_core) parent) before in
      _stroke parent = Single
      /\ result.1 = Thrown "Duplicated hotkey"
      /\ fired result.2 = [Noop]
      /\ lastHotKey result.2 = None).
Proof.
  split.
  - vm_compute. repeat split. discriminate.
  - vm_compute. repeat split.
Qed.



Lemma native_refusal_is_dropped_witness :
  let core := taken_core ["KeyA"%string] in
  locals initial_manager !! id_of (H := core) ctrlA = None
  /\ globals initial_manager !! id_of (H := core) ctrlA = None
  /\ isOk (innerRegister (HotkCore := core)
             (native_log initial_manager) (mods ctrlA) (code ctrlA)) = false
  /\ exists m',
       register (H := core) ctrlA true initial_manager = (Normal tt, m')
       /\ m' = log_native (NRegister (mods ctrlA) (code ctrlA)) initial_manager
       /\ globals m' = globals initial_manager
       /\ locals m' = locals initial_manager.
Proof.
  intros core.
  split; [reflexivity|]. split; [reflexivity|]. split; [reflexivity|].
  exact (@native_refusal_is_dropped core ctrlA true initial_manager
           eq_refl eq_refl eq_refl).
Defined.

Lemma quiet_code_keeps (P : Manager -> Prop) (k : nat) :
  hoare P (callback (UserCode := quiet_code) k) P.
Proof. intros m Hm. exact Hm. Qed.

Lemma scopes_stay_disjoint_witness :
  reports_computed_id (H := willing_core)
  /\ (forall k, hoare scopes_disjoint (callback (UserCode := quiet_code) k)
                  scopes_disjoint)
  /\ scopes_disjoint rooted_manager
  /\ scopes_disjoint descended_manager
  /\ scopes_disjoint (finish (recoverRoot (H := willing_core)
                               descended_manager))
  /\ scopes_disjoint
       (mgr (finish (handleEvent (H := willing_core) (H0 := quiet_code) 5200
                       (pressed (H := willing_core) keyB_staying)
                       descended_world))).
Proof.
  destruct (@scopes_stay_disjoint willing_core quiet_code
              willing_core_reports)
    as (Hstart & Hreg & _ & Hrec & Hdescend & _ & Hevent).
  pose proof (Hreg escape_global true initial_manager Hstart) as H1.
  pose proof (Hreg (ctrlA_with keyB) false _ H1) as H2.
  pose proof (Hdescend [keyB; keyZ] (Fin 1000) _ H2) as H3.
  pose proof (Hrec _ H3) as H4.
  pose proof (Hreg (ctrlA_with keyB_staying) false initial_manager Hstart)
    as H5.
  pose proof (Hevent (quiet_code_keeps scopes_disjoint) 5000
                (pressed (H := willing_core) (ctrlA_with keyB_staying))
                (set_mgr _ initial_world) H5) as H6.
  pose proof (Hevent (quiet_code_keeps scopes_disjoint) 5200
                (pressed (H := willing_core) keyB_staying) _ H6) as H7.
  split; [exact willing_core_reports|].
  split; [exact (quiet_code_keeps scopes_disjoint)|].
  split; [exact H2|]. split; [exact H3|]. split; [exact H4|]. exact H7.
Defined.

(** With a core whose identities leave the modifiers out, Ctrl+A
    registered as a global and Alt+A registered as a local end up under
    the same key of both scopes. *)
Lemma scopes_collide_when_identities_differ :
  let m :=
    finish ((register (H := key_only_core) ctrlA true >>>
             register (H := key_only_core) altA false) initial_manager) in
  scopes_disjoint initial_manager
  /\ id_of (H := key_only_core) ctrlA <> id_of (H := key_only_core) altA
  /\ globals m !! name_sum "KeyA" = Some ctrlA
  /\ locals m !! name_sum "KeyA" = Some altA
  /\ ~ scopes_disjoint m.
Proof.
  intros m.
  assert (Hg : globals m !! name_sum "KeyA" = Some ctrlA)
    by (vm_compute; reflexivity).
  assert (Hl : locals m !! name_sum "KeyA" = Some altA)
    by (vm_compute; reflexivity).
  split; [apply map_disjoint_empty_l|].
  split; [vm_compute; discriminate|].
  split; [exact Hg|]. split; [exact Hl|].
  intros Hdisj. unfold scopes_disjoint in Hdisj.
  rewrite map_disjoint_spec in Hdisj. exact (Hdisj _ _ _ Hg Hl).
Qed.

Lemma subaction_context_replaces_locals_witness :
  accepted (H := once_core) (native_log rooted_manager)
    (unregister_calls (Object_values (locals rooted_manager))
     ++ register_calls [keyB; keyZ])
  /\ scopes_disjoint rooted_manager
  /\ locals_keyed (H := once_core) rooted_manager
  /\ NoDup (id_of (H := once_core) <$> [keyB; keyZ])
  /\ (forall c, c ∈ [keyB; keyZ] ->
        globals rooted_manager !! id_of (H := once_core) c = None)
  /\ exists m',
       withSnapshot (H := once_core) [keyB; keyZ] (Fin 1000) rooted_manager
       = (Normal tt, m')
       /\ locals m' = list_to_map (entries (H := once_core) [keyB; keyZ])
       /\ (forall k c,
             locals m' !! k = Some c
             <-> c ∈ [keyB; keyZ] /\ id_of (H := once_core) c = k)
       /\ globals m' = globals rooted_manager
       /\ root m' = Some [ctrlA_with keyB]
       /\ native_log m' =
          native_log rooted_manager
          ++ unregister_calls [ctrlA_with keyB]
          ++ register_calls [keyB; keyZ].
Proof.
  destruct rooted_manager_consistent as [Hd Hk].
  assert (Hacc : accepted (H := once_core) (native_log rooted_manager)
                   (unregister_calls (Object_values (locals rooted_manager))
                    ++ register_calls [keyB; keyZ])).
  { vm_compute. repeat split. }
  assert (Hnd : NoDup (id_of (H := once_core) <$> [keyB; keyZ])).
  { apply (bool_decide_unpack _). vm_compute. reflexivity. }
  assert (Hfresh : forall c, c ∈ [keyB; keyZ] ->
            globals rooted_manager !! id_of (H := once_core) c = None).
  { intros c Hc. each_member Hc. }
  split; [exact Hacc|]. split; [exact Hd|].
  split; [exact Hk|]. split; [exact Hnd|]. split; [exact Hfresh|].
  exact (@subaction_context_replaces_locals once_core
           [keyB; keyZ] (Fin 1000) rooted_manager Hacc Hd Hk Hnd Hfresh).
Defined.

(** Three descents that do not leave exactly the children in [locals].
    A child for the key of a registered global: entering the context
    throws after the previous local was unregistered, and [locals] is
    empty.  Two children for the same key: it throws at the second, and
    only the first is local.  A child whose key another application
    holds: it returns, and [locals] is empty. *)
Lemma subaction_context_with_taken_identity :
  (let result :=
     withSnapshot (H := willing_core) [escape_local] (Fin 1000)
       rooted_manager in
   globals rooted_manager !! id_of (H := willing_core) escape_local
   = Some escape_global
   /\ locals rooted_manager !! id_of (H := willing_core) (ctrlA_with keyB)
      = Some (ctrlA_with keyB)
   /\ result.1 = Thrown "Duplicated hotkey"
   /\ locals result.2 !! id_of (H := willing_core) escape_local = None
   /\ locals result.2 = ∅)
  /\ (let result :=
        withSnapshot (H := willing_core) [keyB; keyB_again] (Fin 1000)
          rooted_manager in
      result.1 = Thrown "Duplicated hotkey"
      /\ locals result.2 !! id_of (H := willing_core) keyB = Some keyB
      /\ Object_values (locals result.2) = [keyB])
  /\ (let core := taken_core ["KeyB"%string] in
      let before :=
        finish (HotKey_register (H := core) (ctrlA_with keyB)
                  initial_manager) in
      let result := withSnapshot (H := core) [keyB] (Fin 1000) before in
      locals before !! id_of (H := core) (ctrlA_with keyB)
      = Some (ctrlA_with keyB)
      /\ result.1 = Normal tt
      /\ locals result.2 = ∅).
Proof.
  split; [|split]; vm_compute; repeat split.
Qed.

Lemma recoverRoot_idempotent_witness :
  root rooted_manager = None
  /\ recoverRoot (H := willing_core) rooted_manager
     = (Normal tt, rooted_manager)
  /\ accepted (H := willing_core) (native_log descended_manager)
       (unregister_calls (Object_values (locals descended_manager))
        ++ register_calls [ctrlA_with keyB])
  /\ scopes_disjoint descended_manager
  /\ locals_keyed (H := willing_core) descended_manager
  /\ root descended_manager = Some [ctrlA_with keyB]
  /\ NoDup (id_of (H := willing_core) <$> [ctrlA_with keyB])
  /\ (forall h, h ∈ [ctrlA_with keyB] ->
        globals descended_manager !! id_of (H := willing_core) h = None)
  /\ exists m',
       recoverRoot (H := willing_core) descended_manager = (Normal tt, m')
       /\ locals m'
          = list_to_map (entries (H := willing_core) [ctrlA_with keyB])
       /\ globals m' = globals descended_manager
       /\ native_log m' =
          native_log descended_manager
          ++ unregister_calls [keyB; keyZ]
          ++ register_calls [ctrlA_with keyB]
       /\ root m' = None
       /\ timeoutRecoverRoot m' = None
       /\ timers m' = []
       /\ recoverRoot (H := willing_core) m' = (Normal tt, m').
Proof.
  destruct descended_manager_consistent as [Hd Hk].
  assert (Hroot : root descended_manager = Some [ctrlA_with keyB])
    by (vm_compute; reflexivity).
  assert (Hnd : NoDup (id_of (H := willing_core) <$> [ctrlA_with keyB])).
  { apply (bool_decide_unpack _). vm_compute. reflexivity. }
  assert (Hfresh : forall h, h ∈ [ctrlA_with keyB] ->
            globals descended_manager !! id_of (H := willing_core) h = None).
  { intros h Hh. each_member Hh. }
  destruct (@recoverRoot_idempotent willing_core rooted_manager)
    as (Hnoop & _ & _).
  destruct (@recoverRoot_idempotent willing_core descended_manager)
    as (_ & Hreturned & Hrestores).
  pose proof (accepts_every_call_accepted (H := willing_core)
                (native_log descended_manager)
                (unregister_calls (Object_values (locals descended_manager))
                 ++ register_calls [ctrlA_with keyB])
                willing_core_accepts) as Hacc.
  destruct (Hrestores [ctrlA_with keyB] Hacc
              Hd Hk Hroot Hnd Hfresh) as (m' & Hrec & Hl & Hg).
  destruct (Hreturned [ctrlA_with keyB] m' Hroot Hrec)
    as (Hlog & _ & Hr & Ht & Hgone & Hagain).
  split; [reflexivity|]. split; [exact (Hnoop eq_refl)|].
  split; [exact Hacc|]. split; [exact Hd|].
  split; [exact Hk|]. split; [exact Hroot|]. split; [exact Hnd|].
  split; [exact Hfresh|].
  exists m'. split; [exact Hrec|]. split; [exact Hl|]. split; [exact Hg|].
  split; [exact Hlog|]. split; [exact Hr|]. split; [exact Ht|].
  split; [|exact Hagain].
  assert (Hm' : m' = finish (recoverRoot (H := willing_core)
                               descended_manager))
    by (rewrite Hrec; reflexivity).
  rewrite Hm'. vm_compute. reflexivity.
Defined.

(** The root context holds [keyZ] and [ctrlA_with keyB]; while the
    context is descended to [keyB], a global is registered for the
    combination of [ctrlA].  [recoverRoot] then throws with the snapshot
    still pending and only [keyZ] back in [locals], and a second call is
    not a no-op: it asks the core to unregister and register [keyZ]
    again.  And with a core that turns down the second registration of a
    combination, [recoverRoot] returns with the snapshot cleared and
    nothing in [locals]. *)
Lemma recoverRoot_with_taken_identity :
  (let m :=
     finish ((HotKey_register (H := willing_core) keyZ >>>
              HotKey_register (H := willing_core) (ctrlA_with keyB) >>>
              withSnapshot (H := willing_core) [keyB] (Fin 1000) >>>
              HotKey_register (H := willing_core)
                (Builder.global true ctrlA_again))
             initial_manager) in
   let first := recoverRoot (H := willing_core) m in
   let second := recoverRoot (H := willing_core) first.2 in
   root m = Some [keyZ; ctrlA_with keyB]
   /\ first.1 = Thrown "Duplicated hotkey"
   /\ root first.2 = Some [keyZ; ctrlA_with keyB]
   /\ locals first.2 !! id_of (H := willing_core) (ctrlA_with keyB) = None
   /\ native_log second.2
      = native_log first.2
        ++ [NUnregister (mods keyZ) (code keyZ);
            NRegister (mods keyZ) (code keyZ)]
   /\ second.2 <> first.2)
  /\ (let m :=
        finish ((HotKey_register (H := once_core) (ctrlA_with keyB) >>>
                 withSnapshot (H := once_core) [keyB] (Fin 1000))
                initial_manager) in
      let result := recoverRoot (H := once_core) m in
      root m = Some [ctrlA_with keyB]
      /\ Object_values (locals m) = [keyB]
      /\ result.1 = Normal tt
      /\ root result.2 = None
      /\ locals result.2 = ∅).
Proof.
  split.
  - vm_compute. repeat split. discriminate.
  - vm_compute. repeat split.
Qed.

Lemma revert_timer_discipline_witness :
  accepted (H := willing_core) (native_log rooted_manager)
    (round_trip_calls (H := willing_core) (locals rooted_manager)
       [keyB; keyZ])
  /\ scopes_disjoint rooted_manager
  /\ locals_keyed (H := willing_core) rooted_manager
  /\ one_timer rooted_manager
  /\ root rooted_manager = None
  /\ NoDup (id_of (H := willing_core) <$> [keyB; keyZ])
  /\ (forall c, c ∈ [keyB; keyZ] ->
        globals rooted_manager !! id_of (H := willing_core) c = None)
  /\ isNaN (Fin 1000) = false
  /\ (exists m1 m2,
        withSnapshot (H := willing_core) [keyB; keyZ] (Fin 1000)
          rooted_manager = (Normal tt, m1)
        /\ timers m1 = [(0%nat, Fin 1000)]
        /\ timer_expires (H := willing_core) 0 m1 = (Normal tt, m2)
        /\ locals m2 = locals rooted_manager
        /\ globals m2 = globals rooted_manager
        /\ root m2 = None
        /\ timeoutRecoverRoot m2 = None
        /\ timers m2 = [])
  /\ one_timer descended_manager
  /\ timers (finish (withSnapshot (H := willing_core) [keyB] NaN
                      descended_manager)) = []
  /\ (forall k, hoare one_timer (callback (UserCode := quiet_code) k)
                  one_timer)
  /\ one_timer
       (mgr (finish (handleEvent (H := willing_core) (H0 := quiet_code) 5000
                       (pressed (H := willing_core) (ctrlA_with keyB))
                       (set_mgr rooted_manager initial_world)))).
Proof.
  destruct rooted_manager_consistent as [Hd Hk].
  assert (Hone : one_timer rooted_manager) by (left; reflexivity).
  assert (Hnd : NoDup (id_of (H := willing_core) <$> [keyB; keyZ])).
  { apply (bool_decide_unpack _). vm_compute. reflexivity. }
  assert (Hfresh : forall c, c ∈ [keyB; keyZ] ->
            globals rooted_manager !! id_of (H := willing_core) c = None).
  { intros c Hc. each_member Hc. }
  destruct (@revert_timer_discipline willing_core quiet_code)
    as ((_ & _ & _ & _ & Hkeep & _ & Hevent) & Hsched & _ & _ & Hround).
  pose proof (accepts_every_call_accepted (H := willing_core)
                (native_log rooted_manager)
                (round_trip_calls (H := willing_core) (locals rooted_manager)
                   [keyB; keyZ])
                willing_core_accepts) as Hacc.
  pose proof (Hkeep [keyB; keyZ] (Fin 1000) rooted_manager Hone) as Hone'.
  pose proof (Hevent (quiet_code_keeps one_timer) 5000
                (pressed (H := willing_core) (ctrlA_with keyB))
                (set_mgr rooted_manager initial_world) Hone) as Hone''.
  pose proof (Hsched [keyB] NaN descended_manager Hone') as Hnan.
  split; [exact Hacc|]. split; [exact Hd|].
  split; [exact Hk|]. split; [exact Hone|]. split; [reflexivity|].
  split; [exact Hnd|]. split; [exact Hfresh|]. split; [reflexivity|].
  split.
  { exact (Hround [keyB; keyZ] (Fin 1000) rooted_manager
             Hacc Hd Hk Hone eq_refl Hnd Hfresh eq_refl). }
  split; [exact Hone'|]. split; [exact Hnan|].
  split; [exact (quiet_code_keeps one_timer)|]. exact Hone''.
Defined.

(** An infinite timeout is not a finite number, and the revert timer is
    started all the same, with the largest delay.  And with a core that
    turns down the second registration of a combination, the expiry of
    the timer does not bring the local of before the descent back. *)
Lemma infinite_timeout_starts_timer :
  (let result :=
     withSnapshot (H := willing_core) [keyB] PosInfinity rooted_manager in
   isFinite PosInfinity = false
   /\ timers rooted_manager = []
   /\ result.1 = Normal tt
   /\ timers result.2 = [(0%nat, Fin 2147483647)]
   /\ timeoutRecoverRoot result.2 = Some 0%nat)
  /\ (let before :=
        finish (HotKey_register (H := once_core) (ctrlA_with keyB)
                  initial_manager) in
      let result :=
        (withSnapshot (H := once_core) [keyB] (Fin 1000) >>>
         timer_expires (H := once_core) 0) before in
      Object_values (locals before) = [ctrlA_with keyB]
      /\ result.1 = Normal tt
      /\ timers result.2 = []
      /\ locals result.2 = ∅).
Proof.
  split; vm_compute; repeat split.
Qed.

(** The scenario of the documentation.  Ctrl+A is pressed twice within its
    stroke timeout: the first press fires nothing, the second runs its
    action and descends to B.  Then either B is pressed, which runs its
    action and recovers the root, or the revert timer expires, which
    recovers the root as well.  The global Escape stays where it is. *)
Example documented_scenario :
  let start :=
    finish (lift (HotKey_register (H := willing_core) scenario_parent >>>
                  HotKey_register (H := willing_core) escape_global)
              initial_world) in
  let once :=
    finish (handleEvent (H := willing_core) (H0 := quiet_code) 1000
              (pressed (H := willing_core) scenario_parent) start) in
  let twice :=
    finish (handleEvent (H := willing_core) (H0 := quiet_code) 1400
              (pressed (H := willing_core) scenario_parent) once) in
  let child_pressed :=
    finish (handleEvent (H := willing_core) (H0 := quiet_code) 1600
              (pressed (H := willing_core) scenario_child) twice) in
  let timed_out :=
    finish (lift (timer_expires (H := willing_core) 0) twice) in
  fired once = []
  /\ Object_values (locals (mgr once)) = [scenario_parent]
  /\ fired twice = [Callback 1]
  /\ Object_values (locals (mgr twice)) = [scenario_child]
  /\ root (mgr twice) = Some [scenario_parent]
  /\ timers (mgr twice) = [(0%nat, Fin 1000)]
  /\ fired child_pressed = [Callback 1; Callback 2]
  /\ Object_values (locals (mgr child_pressed)) = [scenario_parent]
  /\ root (mgr child_pressed) = None
  /\ timers (mgr child_pressed) = []
  /\ fired timed_out = [Callback 1]
  /\ Object_values (locals (mgr timed_out)) = [scenario_parent]
  /\ root (mgr timed_out) = None
  /\ Object_values (globals (mgr child_pressed)) = [escape_global]
  /\ Object_values (globals (mgr timed_out)) = [escape_global].
Proof. vm_compute. repeat split. Qed.

(** * Further properties of the module *)

(** ** The key and modifier tables *)

Lemma self_map_fold (keys : list string) (acc : gmap string string)
    (k : string) :
  foldl (fun acc key => set_property key key acc) acc keys !! k
  = if decide (k ∈ keys /\ k <> "__proto__"%string)
    then Some k else acc !! k.
Proof.
  revert acc. induction keys as [|key keys IH]; intros acc; cbn [foldl].
  - case_decide as Hin; [|reflexivity].
    destruct Hin as [Hin _]. apply not_elem_of_nil in Hin. destruct Hin.
  - rewrite IH. unfold set_property.
    destruct (decide (k ∈ keys /\ k <> "__proto__"%string)) as [Hin|Hnin];
      destruct (decide (k ∈ key :: keys /\ k <> "__proto__"%string))
        as [Hin'|Hnin'].
    + reflexivity.
    + exfalso. apply Hnin'. destruct Hin as [Hin Hk].
      split; [apply list_elem_of_further, Hin | exact Hk].
    + destruct Hin' as [Hin' Hk].
      apply elem_of_cons in Hin' as [->|Hin']; [|tauto].
      destruct (decide (key = "__proto__"%string)) as [Heq|_]; [tauto|].
      apply lookup_insert_eq.
    + destruct (decide (key = "__proto__"%string)) as [Heq|Hne];
        [reflexivity|].
      rewrite lookup_insert_ne; [reflexivity|].
      intros ->. apply Hnin'. split; [apply list_elem_of_here | exact Hne].
Qed.

(** X1. The own properties of the table built from a list of names are
    the listed names other than [__proto__], each with itself as value,
    whatever the order and the repetitions in the list; so on its own
    properties [KeyCodes] (and [Mods]) is the identity on the names the
    native core enumerates.  The name [__proto__], listed or not, is
    never an own property. *)
Theorem self_map_lookup (keys : list string) (k v : string) :
  (self_map keys !! k = Some v
   <-> v = k /\ k ∈ keys /\ k <> "__proto__"%string)
  /\ (KeyCodes keys !! k = Some v
      <-> v = k /\ k ∈ keys /\ k <> "__proto__"%string)
  /\ (Mods keys !! k = Some v
      <-> v = k /\ k ∈ keys /\ k <> "__proto__"%string)
  /\ (self_map keys !! k = None
      <-> k ∉ keys \/ k = "__proto__"%string)
  /\ self_map keys !! "__proto__"%string = None.
Proof.
  unfold KeyCodes, Mods, KeyCode, Mod, self_map.
  rewrite !self_map_fold, !lookup_empty.
  split; [|split; [|split; [|split]]].
  4: { destruct (decide (k ∈ keys /\ k <> "__proto__"%string)) as [Hin|Hnin].
       - split; [intros [=]|]. destruct Hin as [Hin Hk].
         intros [Hn | Hn]; contradiction.
       - split; [|reflexivity]. intros _.
         destruct (decide (k ∈ keys)) as [Hin|Hout]; [|left; exact Hout].
         destruct (decide (k = "__proto__"%string)) as [Hk|Hk];
           [right; exact Hk|].
         exfalso. apply Hnin. split; assumption. }
  4: { destruct (decide (_ /\ _)) as [[_ Hk]|_]; [|reflexivity].
       exfalso. apply Hk. reflexivity. }
  all: destruct (decide (k ∈ keys /\ k <> "__proto__"%string)) as [Hin|Hnin].
  all: try (split; [intros [= <-]; split; [reflexivity | exact Hin]
                   | intros [-> _]; reflexivity]).
  all: split; [discriminate | intros [_ Hk]; contradiction].
Qed.

(** ** Chains of builder calls *)

Lemma chain_app (calls more : list BuilderCall) (this : HotKey) :
  chain (calls ++ more) this =
  match chain calls this with
  | Normal this' => chain more this'
  | Thrown e => Thrown e
  end.
Proof.
  revert this. induction calls as [|call calls IH]; intros this; simpl.
  - reflexivity.
  - destruct (builder_call call this); [apply IH | reflexivity].
Qed.

Lemma builder_call_combination (call : BuilderCall) (this : HotKey) :
  match builder_call call this with
  | Normal this' =>
      oid this' = oid this /\ mods this' = mods this /\ code this' = code this
  | Thrown e =>
      e = "Subactions are not supported for global hotkeys"%string
      /\ _global this = true
  end.
Proof.
  destruct call; simpl; try (repeat split; reflexivity);
    unfold Builder.subaction, Builder.subactions;
    destruct (_global this); simpl; repeat split; reflexivity.
Qed.

(** X2. Whatever builder methods are called on a hotkey, in whatever
    order, the object stays the same and keeps its modifiers and key code,
    hence its identity; and a chain can only end in the error of
    [subaction] and [subactions]. *)
Theorem chain_keeps_combination `{HotkCore}
    (calls : list BuilderCall) (this : HotKey) :
  match chain calls this with
  | Normal this' =>
      same_object this' this = true
      /\ mods this' = mods this
      /\ code this' = code this
      /\ id_of this' = id_of this
  | Thrown e => e = "Subactions are not supported for global hotkeys"%string
  end.
Proof.
  revert this. induction calls as [|call calls IH]; intros this; simpl.
  - unfold same_object, id_of. rewrite Nat.eqb_refl. repeat split.
  - pose proof (builder_call_combination call this) as Hcall.
    destruct (builder_call call this) as [this'|e]; [|apply Hcall].
    destruct Hcall as (Ho & Hm & Hc). specialize (IH this').
    destruct (chain calls this') as [this''|e]; [|exact IH].
    destruct IH as (Ho' & Hm' & Hc' & Hi').
    unfold same_object, id_of in *.
    rewrite <- Ho, <- Hm, <- Hc. repeat split; assumption.
Qed.

Lemma builder_call_childless (call : BuilderCall) (this this' : HotKey) :
  global_is_childless this ->
  builder_call call this = Normal this' ->
  global_is_childless this'.
Proof.
  unfold global_is_childless.
  destruct call; simpl; try (intros Hthis [= <-]; simpl; auto; fail).
  - unfold Builder.subaction. destruct (_global this) eqn:Hg; [discriminate|].
    intros _ [= <-]. simpl. rewrite Hg. discriminate.
  - unfold Builder.subactions. destruct (_global this) eqn:Hg; [discriminate|].
    intros _ [= <-]. simpl. rewrite Hg. discriminate.
Qed.

(** X3. A hotkey made by [hotKey(mods, code)] and any chain of builder
    calls that does not throw is never global with subactions: the flag
    [_global] being set, the subaction list is empty. *)
Theorem built_global_is_childless
    (o : nat) (ms : list Mod) (keyCode : KeyCode) (calls : list BuilderCall) :
  match chain calls (hotKey o ms keyCode) with
  | Normal this => global_is_childless this
  | Thrown _ => True
  end.
Proof.
  assert (Hgen : forall this, global_is_childless this ->
            match chain calls this with
            | Normal this' => global_is_childless this'
            | Thrown _ => True
            end).
  { induction calls as [|call calls IH]; intros this Hthis; simpl.
    - exact Hthis.
    - destruct (builder_call call this) as [this'|e] eqn:Hcall; [|exact I].
      apply IH. eapply builder_call_childless; eauto. }
  apply Hgen. intros Hg. reflexivity.
Qed.

(** X4. After any chain of builder calls, [subaction(sub)] throws exactly
    when the hotkey is global at that point, and then the whole chain
    throws, whatever follows; otherwise [sub] becomes the last child and
    the chain goes on.  [subactions(subs)] throws in the same case and
    otherwise replaces the children. *)
Theorem subaction_after_chain
    (calls more : list BuilderCall) (sub : HotKey) (subs : list HotKey)
    (this : HotKey) :
  match chain calls this with
  | Normal this' =>
      chain (calls ++ CallSubaction sub :: more) this
      = (if _global this'
         then Thrown "Subactions are not supported for global hotkeys"
         else chain more
                (Builder.set_subactions (_subactions this' ++ [sub]) this'))
      /\ chain (calls ++ CallSubactions subs :: more) this
         = (if _global this'
            then Thrown "Subactions are not supported for global hotkeys"
            else chain more (Builder.set_subactions subs this'))
      /\ chain (calls ++ CallGlobal true :: CallSubaction sub :: more) this
         = Thrown "Subactions are not supported for global hotkeys"
  | Thrown e =>
      chain (calls ++ CallSubaction sub :: more) this = Thrown e
      /\ chain (calls ++ CallSubactions subs :: more) this = Thrown e
  end.
Proof.
  rewrite !chain_app.
  destruct (chain calls this) as [this'|e]; [|split; reflexivity].
  simpl. unfold Builder.subaction, Builder.subactions.
  destruct (_global this'); repeat split; reflexivity.
Qed.

(** ** Registration and dispatch *)

Section RegistrationAndDispatch.
Context `{HotkCore} `{UserCode}.

(** X5. When the computed identity is free and the core accepts the
    registration under the identity [r], [register] returns, the chosen
    scope holds the hotkey under [r] (not under the computed identity,
    should the two differ), the other scope and every other key are as
    before, the snapshot and the timers are untouched, and exactly one
    native call was made. *)
Theorem register_installs
    (hotKey : HotKey) (isGlobal : bool) (m : Manager) (r : N) :
  locals m !! id_of hotKey = None ->
  globals m !! id_of hotKey = None ->
  innerRegister (native_log m) (mods hotKey) (code hotKey) = mkResult true r ->
  exists m',
    register hotKey isGlobal m = (Normal tt, m')
    /\ (if isGlobal then globals m' else locals m') !! r = Some hotKey
    /\ (if isGlobal then locals m' = locals m else globals m' = globals m)
    /\ (forall k, k <> r ->
          globals m' !! k = globals m !! k /\ locals m' !! k = locals m !! k)
    /\ scheduling m' = scheduling m
    /\ native_log m'
       = native_log m ++ [NRegister (mods hotKey) (code hotKey)].
Proof.
  intros Hl Hg Hok. eexists. rewrite register_unfold, Hl, Hg.
  rewrite !bool_decide_eq_false_2 by (intros [? ?]; discriminate).
  cbv zeta. simpl orb. cbv iota. rewrite Hok. simpl.
  split; [reflexivity|].
  destruct isGlobal; simpl.
  - split; [apply lookup_insert_eq|]. split; [reflexivity|].
    split; [|split; reflexivity].
    intros k Hk. rewrite lookup_insert_ne by congruence. split; reflexivity.
  - split; [apply lookup_insert_eq|]. split; [reflexivity|].
    split; [|split; reflexivity].
    intros k Hk. rewrite lookup_insert_ne by congruence. split; reflexivity.
Qed.

(** X6. After such a registration a Pressed event carrying the reported
    identity is the hotkey's own [fire()] (for a local hotkey, provided no
    global sits under that identity, since globals are looked up first),
    and a Released event with that identity does nothing. *)
Theorem registered_hotkey_receives_events
    (hotKey : HotKey) (isGlobal : bool) (w : World) (r : N) (now : Z) :
  locals (mgr w) !! id_of hotKey = None ->
  globals (mgr w) !! id_of hotKey = None ->
  innerRegister (native_log (mgr w)) (mods hotKey) (code hotKey)
  = mkResult true r ->
  (isGlobal = false -> globals (mgr w) !! r = None) ->
  let w' := finish (lift (register hotKey isGlobal) w) in
  handleEvent now (mkEvent r Pressed) w' = fire now hotKey w'
  /\ handleEvent now (mkEvent r Released) w' = (Normal tt, w').
Proof.
  intros Hl Hg Hok Hshadow w'.
  destruct (register_installs hotKey isGlobal (mgr w) r Hl Hg Hok)
    as (m' & Hreg & Hin & Hother & _).
  assert (Hw' : mgr w' = m').
  { unfold w', finish, lift. rewrite Hreg. reflexivity. }
  split; [|reflexivity].
  unfold handleEvent. run. rewrite Hw'.
  destruct isGlobal.
  - rewrite Hin. reflexivity.
  - rewrite Hother, (Hshadow eq_refl), Hin. reflexivity.
Qed.

(** X7. [unregister] never throws.  When the core accepts it under the
    identity [r], that identity is afterwards in neither scope, whichever
    hotkey object sat there, so every later event carrying [r] is dropped;
    all other keys, the snapshot and the timers are untouched.  When the
    core refuses, both scopes are as before. *)
Theorem unregister_silences_identity
    (hotKey : HotKey) (w : World) (now : Z) (event : Event) :
  let result :=
    innerUnregister (native_log (mgr w)) (mods hotKey) (code hotKey) in
  let w' := finish (lift (unregister hotKey) w) in
  (unregister hotKey (mgr w)).1 = Normal tt
  /\ scheduling (mgr w') = scheduling (mgr w)
  /\ if isOk result
     then globals (mgr w') = delete (result_id result) (globals (mgr w))
          /\ locals (mgr w') = delete (result_id result) (locals (mgr w))
          /\ (id event = result_id result ->
              handleEvent now event w' = (Normal tt, w'))
     else globals (mgr w') = globals (mgr w)
          /\ locals (mgr w') = locals (mgr w).
Proof.
  intros result w'.
  assert (Hw' : mgr w' = (unregister hotKey (mgr w)).2).
  { unfold w', finish, lift. destruct (unregister hotKey (mgr w)).
    reflexivity. }
  split; [apply unregister_returns|].
  split; [rewrite Hw'; apply unregister_scheduling|].
  rewrite Hw', unregister_unfold. cbv zeta. fold result.
  destruct (isOk result) eqn:Hok; simpl; [|split; reflexivity].
  split; [reflexivity|]. split; [reflexivity|].
  intros Hid. unfold handleEvent. run.
  rewrite Hw', unregister_unfold. cbv zeta. fold result. rewrite Hok. simpl.
  rewrite Hid, !lookup_delete_eq. destruct (eventType event); reflexivity.
Qed.

(** X8. Registering a hotkey whose identity is free and unregistering it
    again, both accepted under the computed identity, returns and leaves
    both scopes, the snapshot and the timers as they were. *)
Theorem register_then_unregister
    (hotKey : HotKey) (isGlobal : bool) (m : Manager) :
  locals m !! id_of hotKey = None ->
  globals m !! id_of hotKey = None ->
  accepted (native_log m)
    (register_calls [hotKey] ++ unregister_calls [hotKey]) ->
  exists m',
    (register hotKey isGlobal >>> unregister hotKey) m = (Normal tt, m')
    /\ globals m' = globals m
    /\ locals m' = locals m
    /\ scheduling m' = scheduling m
    /\ native_log m'
       = native_log m ++ register_calls [hotKey] ++ unregister_calls [hotKey].
Proof.
  intros Hl Hg (Hreg & Hunreg & _). simpl in Hreg, Hunreg.
  assert (Hrun : (register hotKey isGlobal >>> unregister hotKey) m =
            (Normal tt,
             (unregister hotKey
                (if isGlobal
                 then set_globals (<[id_of hotKey := hotKey]> (globals m))
                        (log_native (NRegister (mods hotKey) (code hotKey)) m)
                 else set_locals (<[id_of hotKey := hotKey]> (locals m))
                        (log_native (NRegister (mods hotKey) (code hotKey)) m))
             ).2)).
  { unfold bind. rewrite register_unfold, Hl, Hg.
    rewrite !bool_decide_eq_false_2 by (intros [? ?]; discriminate).
    cbv zeta. simpl orb. cbv iota. rewrite Hreg. simpl.
    fold (id_of hotKey).
    destruct isGlobal; rewrite unregister_unfold; reflexivity. }
  rewrite Hrun. eexists. split; [reflexivity|].
  rewrite unregister_unfold. cbv zeta.
  destruct isGlobal; simpl; rewrite Hunreg; simpl; fold (id_of hotKey);
    rewrite delete_insert_eq, ?(delete_id (globals m)), ?(delete_id (locals m))
      by assumption;
    rewrite <- app_assoc; repeat split; reflexivity.
Qed.

End RegistrationAndDispatch.

(** ** Contexts, whatever the core answers *)

Section ContextsAnyCore.
Context `{HotkCore}.

Lemma unregister_locals hotKey m : locals (unregister hotKey m).2 ⊆ locals m.
Proof.
  rewrite unregister_unfold. cbv zeta. destruct (isOk _); simpl.
  - apply delete_subseteq.
  - reflexivity.
Qed.

Lemma unregister_all_locals hs m :
  locals (for_of hs unregister m).2 ⊆ locals m.
Proof.
  revert m. induction hs as [|h hs IH]; intros m; simpl; [reflexivity|].
  unfold bind. pose proof (unregister_locals h m) as Hl.
  destruct (unregister h m) as [[[]|e] m1]; simpl in *; [|exact Hl].
  etrans; [apply IH | exact Hl].
Qed.

(** X9. [clearLocals] never throws, whatever the core answers.  It asks
    the core to unregister every local, each one once (in the order in
    which [Object.values] enumerates them), and nothing else; it adds no
    entry to either scope and leaves the snapshot and the timers alone. *)
Theorem clearLocals_whatever_the_core (m : Manager) :
  exists asked : list HotKey,
    asked ≡ₚ (map_to_list (locals m)).*2
    /\ clearLocals m
       = (Normal tt, finish (clearLocals m))
    /\ native_log (finish (clearLocals m))
       = native_log m ++ unregister_calls asked
    /\ locals (finish (clearLocals m)) ⊆ locals m
    /\ globals (finish (clearLocals m)) ⊆ globals m
    /\ scheduling (finish (clearLocals m)) = scheduling m.
Proof.
  exists (Object_values (locals m)).
  split.
  { unfold Object_values. apply fmap_Permutation, merge_sort_Permutation. }
  split.
  { pose proof (clearLocals_returns m) as Hret. unfold finish.
    destruct (clearLocals m) as [r m']. simpl in Hret. rewrite Hret.
    reflexivity. }
  split; [apply clearLocals_log|].
  split; [unfold clearLocals; run; apply unregister_all_locals|].
  split; [apply clearLocals_globals | apply clearLocals_scheduling].
Qed.

Lemma register_thrown hotKey isGlobal m e m' :
  register hotKey isGlobal m = (Thrown e, m') ->
  e = "Duplicated hotkey"%string /\ m' = m.
Proof.
  rewrite register_unfold. destruct (_ || _).
  - intros [= <- <-]. split; reflexivity.
  - cbv zeta. discriminate.
Qed.

Lemma register_local_globals hotKey m :
  globals (register hotKey false m).2 = globals m.
Proof.
  rewrite register_unfold. destruct (_ || _); [reflexivity|].
  cbv zeta. destruct (isOk _); reflexivity.
Qed.

Lemma register_all_globals hs m :
  globals (for_of hs (fun hotKey => register hotKey false) m).2 = globals m.
Proof.
  apply (for_of_frame globals). intros. apply register_local_globals.
Qed.

(** The registrations of a loop that stops at the first duplicate. *)
Lemma register_all_trace hs m :
  exists done,
    done `prefix_of` register_calls hs
    /\ native_log (for_of hs (fun hotKey => register hotKey false) m).2
       = native_log m ++ done
    /\ match (for_of hs (fun hotKey => register hotKey false) m).1 with
       | Normal _ => done = register_calls hs
       | Thrown e => e = "Duplicated hotkey"%string
       end.
Proof.
  revert m. induction hs as [|h hs IH]; intros m; simpl.
  - exists []. rewrite app_nil_r. repeat split. reflexivity.
  - unfold bind. destruct (register h false m) as [[[]|e] m1] eqn:Hreg.
    + apply register_local_returned in Hreg as [Hlog _].
      destruct (IH m1) as (done & Hpre & Hlog' & Hend).
      exists (NRegister (mods h) (code h) :: done).
      split; [apply prefix_cons, Hpre|].
      split; [rewrite Hlog', Hlog, <- app_assoc; reflexivity|].
      destruct (for_of hs _ m1).1; [rewrite Hend; reflexivity | exact Hend].
    + apply register_thrown in Hreg as [-> ->].
      exists []. simpl. rewrite app_nil_r.
      split; [apply prefix_nil|]. split; reflexivity.
Qed.

Lemma snapshotted_cleared_fields m :
  globals (snapshotted (cleared m)) = globals m
  /\ locals (snapshotted (cleared m)) = locals m
  /\ native_log (snapshotted (cleared m)) = native_log m
  /\ root (snapshotted (cleared m))
     = Some match root m with
            | Some r => r
            | None => Object_values (locals m)
            end.
Proof.
  destruct (cleared_fields m) as (Hg & Hl & Hr & _ & _ & Hlog).
  unfold snapshotted. rewrite Hr, Hl.
  destruct (root m) eqn:Hroot; simpl; rewrite ?Hg, ?Hl, ?Hlog, ?Hr;
    repeat split; reflexivity.
Qed.

(** X10. Entering a subaction context, whatever the core answers and
    whether the call returns or throws: a snapshot is pending afterwards,
    the one that was pending before if there was one, else the previous
    locals; no global was added; the native calls made are one
    unregistration per previous local followed by registrations of
    children in their order (of all of them if the call returns); and
    the only error is the duplicate-hotkey error. *)
Theorem descent_whatever_the_core
    (hotKeys : list HotKey) (timeout : number) (m : Manager) :
  let result := withSnapshot hotKeys timeout m in
  root result.2 = Some match root m with
                       | Some r => r
                       | None => Object_values (locals m)
                       end
  /\ globals result.2 ⊆ globals m
  /\ exists done,
       done `prefix_of` register_calls hotKeys
       /\ native_log result.2
          = native_log m ++ unregister_calls (Object_values (locals m))
                         ++ done
       /\ match result.1 with
          | Normal _ => done = register_calls hotKeys
          | Thrown e => e = "Duplicated hotkey"%string
          end.
Proof.
  intros result. unfold result. rewrite withSnapshot_unfold.
  set (m2 := snapshotted (cleared m)).
  destruct (snapshotted_cleared_fields m) as (Hg2 & Hl2 & Hlog2 & Hr2).
  fold m2 in Hg2, Hl2, Hlog2, Hr2.
  set (m3 := (clearLocals m2).2).
  pose proof (register_all_scheduling hotKeys m3) as Hs.
  unfold m3 in Hs. rewrite clearLocals_scheduling in Hs. fold m3 in Hs.
  apply scheduling_fields in Hs as (Hr4 & _).
  pose proof (register_all_globals hotKeys m3) as Hg4.
  destruct (register_all_trace hotKeys m3) as (done & Hpre & Hlog4 & Hend).
  assert (Hg3 : globals m3 ⊆ globals m).
  { rewrite <- Hg2. apply clearLocals_globals. }
  assert (Hlog3 : native_log m3
            = native_log m ++ unregister_calls (Object_values (locals m))).
  { unfold m3. rewrite clearLocals_log, Hlog2, Hl2. reflexivity. }
  destruct (for_of hotKeys _ m3) as [[[]|e] m4]; simpl in *.
  - destruct (scheduled_fields timeout m4) as (_ & -> & -> & ->).
    rewrite Hr4, Hr2, Hg4, Hlog4, Hlog3, <- app_assoc.
    split; [reflexivity|]. split; [exact Hg3|]. exists done. auto.
  - rewrite Hr4, Hr2, Hg4, Hlog4, Hlog3, <- app_assoc.
    split; [reflexivity|]. split; [exact Hg3|]. exists done. auto.
Qed.

(** X11. Recovering the root with a snapshot pending, whatever the core
    answers: no global was added and the timer whose handle was held is
    no longer outstanding; if the call returns, the snapshot and the
    handle are cleared; if it throws, the error is the duplicate-hotkey
    error and the snapshot is still pending, so that the recovery can be
    tried again. *)
Theorem recovery_whatever_the_core (m : Manager) (snapshot : list HotKey) :
  root m = Some snapshot ->
  let result := recoverRoot m in
  globals result.2 ⊆ globals m
  /\ (forall h, timeoutRecoverRoot m = Some h -> h ∉ (timers result.2).*1)
  /\ match result.1 with
     | Normal _ => root result.2 = None /\ timeoutRecoverRoot result.2 = None
     | Thrown e =>
         e = "Duplicated hotkey"%string /\ root result.2 = Some snapshot
     end.
Proof.
  intros Hroot result. unfold result.
  rewrite (recoverRoot_unfold m snapshot Hroot).
  set (m2 := (clearLocals (cleared m)).2).
  destruct (cleared_fields m) as (Hgc & _ & Hrc & _ & _ & _).
  pose proof (register_all_scheduling snapshot m2) as Hs.
  unfold m2 in Hs. rewrite clearLocals_scheduling in Hs. fold m2 in Hs.
  apply scheduling_fields in Hs as (Hr3 & _ & Ht3 & _).
  pose proof (register_all_globals snapshot m2) as Hg3.
  destruct (register_all_trace snapshot m2) as (done & _ & _ & Hend).
  assert (Hg2 : globals m2 ⊆ globals m).
  { rewrite <- Hgc. apply clearLocals_globals. }
  assert (Hgone : forall h, timeoutRecoverRoot m = Some h ->
            h ∉ (timers (cleared m)).*1).
  { intros h Hheld Hin. rewrite cleared_timers, Hheld in Hin.
    apply list_elem_of_fmap in Hin as ([h' d] & -> & Hin).
    apply list_elem_of_filter in Hin as [Hne _]. apply Hne. reflexivity. }
  destruct (for_of snapshot _ m2) as [[[]|e] m3]; simpl in *.
  - rewrite Hg3, Ht3. repeat split; assumption.
  - rewrite Hg3, Ht3, Hr3, Hrc, Hroot. repeat split; assumption.
Qed.

End ContextsAnyCore.

(** ** The revert timer and the snapshot *)

Section TimerAndSnapshot.
Context `{HotkCore}.

Lemma timer_paired_frame m m' :
  scheduling m' = scheduling m -> timer_paired m -> timer_paired m'.
Proof.
  intros Hs [Hone Hpair]. split; [exact (one_timer_frame m m' Hs Hone)|].
  apply scheduling_fields in Hs as (Hr & _ & Hts & _).
  rewrite Hr, Hts. exact Hpair.
Qed.

(** With a snapshot pending, no timer is outstanding after
    [recoverRoot], whether it returns or throws. *)
Lemma recoverRoot_clears_timers m snapshot :
  one_timer m -> root m = Some snapshot -> timers (recoverRoot m).2 = [].
Proof.
  intros Hone Hroot. rewrite (recoverRoot_unfold m snapshot Hroot).
  pose proof (register_all_scheduling snapshot (clearLocals (cleared m)).2)
    as Hs.
  rewrite clearLocals_scheduling in Hs.
  apply scheduling_fields in Hs as (_ & _ & Hts & _).
  rewrite (cleared_no_timer m Hone) in Hts.
  destruct (for_of snapshot _ _) as [[[]|e] m3]; exact Hts.
Qed.

Lemma recoverRoot_keeps_paired : hoare timer_paired recoverRoot timer_paired.
Proof.
  intros m [Hone Hpair]. destruct (root m) as [snapshot|] eqn:Hroot.
  - pose proof (recoverRoot_clears_timers m snapshot Hone Hroot) as Hnone.
    split; [left; exact Hnone|].
    intros Hsome. exfalso. apply Hsome. exact Hnone.
  - rewrite recoverRoot_at_root by exact Hroot. split; [exact Hone|].
    simpl. rewrite Hroot. exact Hpair.
Qed.

(** X12. While the revert timer is outstanding a root snapshot is
    pending: this holds at start-up and is kept, together with the
    uniqueness of the timer, by [register], [unregister], [recoverRoot],
    entering a subaction context and the expiry of the timer, whether
    they return or throw.  So the expiry of an outstanding timer always
    finds a snapshot to recover. *)
Theorem timer_stays_paired :
  timer_paired initial_manager
  /\ (forall hotKey isGlobal,
        hoare timer_paired (register hotKey isGlobal) timer_paired)
  /\ (forall hotKey, hoare timer_paired (unregister hotKey) timer_paired)
  /\ hoare timer_paired recoverRoot timer_paired
  /\ (forall hotKeys timeout,
        hoare timer_paired (withSnapshot hotKeys timeout) timer_paired)
  /\ (forall handle, hoare timer_paired (timer_expires handle) timer_paired)
  /\ (forall m handle,
        timer_paired m ->
        handle ∈ (timers m).*1 ->
        exists snapshot,
          root m = Some snapshot
          /\ timer_expires handle m
             = recoverRoot (set_timers [] (next_timer m) m)
          /\ timers (finish (timer_expires handle m)) = []).
Proof.
  split.
  { split; [left; reflexivity|].
    intros Hsome. exfalso. apply Hsome. reflexivity. }
  split.
  { intros hotKey isGlobal m. apply timer_paired_frame, register_scheduling. }
  split.
  { intros hotKey m. apply timer_paired_frame, unregister_scheduling. }
  split; [exact recoverRoot_keeps_paired|].
  split.
  { intros hotKeys timeout m [Hone _]. split.
    - apply withSnapshot_keeps_one_timer, Hone.
    - intros _.
      destruct (descent_whatever_the_core hotKeys timeout m) as (-> & _).
      eauto. }
  split.
  { intros handle m [Hone Hpair].
    destruct (decide (handle ∈ (timers m).*1)) as [Hin|Hnin].
    - rewrite timer_expires_unfold by assumption.
      apply recoverRoot_keeps_paired. split; [left; reflexivity|].
      intros Hsome. exfalso. apply Hsome. reflexivity.
    - unfold timer_expires. run.
      rewrite bool_decide_eq_false_2 by exact Hnin. split; assumption. }
  intros m handle [Hone Hpair] Hin.
  destruct (Hpair) as [snapshot Hroot].
  { intros Hnone. rewrite Hnone in Hin. apply not_elem_of_nil in Hin.
    exact Hin. }
  exists snapshot. split; [exact Hroot|].
  rewrite timer_expires_unfold by assumption. split; [reflexivity|].
  apply (recoverRoot_clears_timers _ snapshot); [left; reflexivity|].
  exact Hroot.
Qed.

(** X13. A cancelled timer does nothing when it expires: with at most one
    timer outstanding, after [recoverRoot] found a snapshot no expiry has
    any effect, and after entering a subaction context only the timer
    just started can have one. *)
Theorem cancelled_timer_is_inert (m : Manager) (handle : nat) :
  one_timer m ->
  (forall snapshot,
     root m = Some snapshot ->
     timer_expires handle (finish (recoverRoot m))
     = (Normal tt, finish (recoverRoot m)))
  /\ (forall hotKeys timeout,
        handle <> next_timer m ->
        timer_expires handle (finish (withSnapshot hotKeys timeout m))
        = (Normal tt, finish (withSnapshot hotKeys timeout m))).
Proof.
  intros Hone. split.
  - intros snapshot Hroot. unfold timer_expires, finish. run.
    rewrite (recoverRoot_clears_timers m snapshot Hone Hroot).
    rewrite bool_decide_eq_false_2 by apply not_elem_of_nil. reflexivity.
  - intros hotKeys timeout Hne. unfold timer_expires, finish. run.
    pose proof (withSnapshot_timers hotKeys timeout m Hone) as Hts.
    rewrite bool_decide_eq_false_2; [reflexivity|].
    destruct (withSnapshot hotKeys timeout m).1.
    + destruct (isNaN timeout).
      * rewrite Hts. apply not_elem_of_nil.
      * destruct Hts as [-> _]. simpl. intros Hin.
        apply list_elem_of_singleton in Hin. contradiction.
    + rewrite Hts. apply not_elem_of_nil.
Qed.

(** X14. A descent of two levels from the root context followed by
    [recoverRoot] ends in the root context: the snapshot taken at the
    first level is the one restored, the locals and globals are those
    from before the first descent, and no timer is outstanding. *)
Theorem nested_descent_recovers_root
    (children grandchildren : list HotKey) (t1 t2 : number) (m : Manager) :
  accepted (native_log m) (nested_calls (locals m) children grandchildren) ->
  scopes_disjoint m ->
  locals_keyed m ->
  one_timer m ->
  root m = None ->
  NoDup (id_of <$> children) ->
  (forall c, c ∈ children -> globals m !! id_of c = None) ->
  NoDup (id_of <$> grandchildren) ->
  (forall c, c ∈ grandchildren -> globals m !! id_of c = None) ->
  exists m1 m2 m3,
    withSnapshot children t1 m = (Normal tt, m1)
    /\ withSnapshot grandchildren t2 m1 = (Normal tt, m2)
    /\ recoverRoot m2 = (Normal tt, m3)
    /\ locals m1 = list_to_map (entries children)
    /\ locals m2 = list_to_map (entries grandchildren)
    /\ root m2 = Some (Object_values (locals m))
    /\ locals m3 = locals m
    /\ globals m3 = globals m
    /\ root m3 = None
    /\ timers m3 = [].
Proof.
  intros Hacc Hdisj Hkeyed Hone Hroot Hnd1 Hfresh1 Hnd2 Hfresh2.
  unfold nested_calls in Hacc.
  apply accepted_app in Hacc as [Hacc1 Hacc].
  apply accepted_app in Hacc as [Hacc2 Hacc3].
  pose proof (withSnapshot_accepted children t1 m
                Hacc1 Hdisj Hkeyed Hnd1 Hfresh1) as H1.
  rewrite Hroot in H1.
  destruct (scheduled_fields t1
              {| globals := globals m;
                 locals := list_to_map (entries children);
                 root := Some (Object_values (locals m));
                 timeoutRecoverRoot := timeoutRecoverRoot m;
                 timers := timers (cleared m);
                 next_timer := next_timer m;
                 native_log :=
                   native_log m ++ unregister_calls (Object_values (locals m))
                                ++ register_calls children |})
    as (Hl1 & Hg1 & Hr1 & Hlog1).
  simpl in Hl1, Hg1, Hr1, Hlog1.
  set (m1 := scheduled t1 _) in *.
  assert (Hone1 : one_timer m1).
  { pose proof (withSnapshot_keeps_one_timer
                  children t1 m Hone) as Hk.
    rewrite H1 in Hk. exact Hk. }
  assert (Hdisj1 : scopes_disjoint m1).
  { unfold scopes_disjoint. rewrite Hg1, Hl1. apply entries_fresh, Hfresh1. }
  assert (Hkeyed1 : locals_keyed m1).
  { unfold locals_keyed. rewrite Hl1. intros k h. apply entries_keyed. }
  pose proof (withSnapshot_accepted grandchildren t2 m1) as H2.
  rewrite Hlog1, Hl1, Hg1, Hr1 in H2.
  specialize (H2 Hacc2 Hdisj1 Hkeyed1 Hnd2 Hfresh2).
  destruct (scheduled_fields t2
              {| globals := globals m;
                 locals := list_to_map (entries grandchildren);
                 root := Some (Object_values (locals m));
                 timeoutRecoverRoot := timeoutRecoverRoot m1;
                 timers := timers (cleared m1);
                 next_timer := next_timer m1;
                 native_log :=
                   (native_log m ++ unregister_calls (Object_values (locals m))
                                 ++ register_calls children)
                   ++ unregister_calls
                        (Object_values (list_to_map (entries children)))
                   ++ register_calls grandchildren |})
    as (Hl2 & Hg2 & Hr2 & Hlog2).
  simpl in Hl2, Hg2, Hr2, Hlog2.
  set (m2 := scheduled t2 _) in *.
  assert (Hone2 : one_timer m2).
  { pose proof (withSnapshot_keeps_one_timer
                  grandchildren t2 m1 Hone1) as Hk.
    rewrite H2 in Hk. exact Hk. }
  pose proof (recoverRoot_accepted m2 (Object_values (locals m))) as H3.
  rewrite Hlog2, Hl2, Hg2, Hr2 in H3.
  assert (Hacc3' :
    accepted
      ((native_log m ++ unregister_calls (Object_values (locals m))
                     ++ register_calls children)
       ++ unregister_calls (Object_values (list_to_map (entries children)))
       ++ register_calls grandchildren)
      (unregister_calls (Object_values (list_to_map (entries grandchildren)))
       ++ register_calls (Object_values (locals m)))).
  { exact Hacc3. }
  assert (Hdisj2 : scopes_disjoint m2).
  { unfold scopes_disjoint. rewrite Hg2, Hl2. apply entries_fresh, Hfresh2. }
  assert (Hkeyed2 : locals_keyed m2).
  { unfold locals_keyed. rewrite Hl2. intros k h. apply entries_keyed. }
  assert (Hfresh0 : forall h, h ∈ Object_values (locals m) ->
            globals m !! id_of h = None).
  { intros h Hh. apply elem_of_Object_values in Hh as [k Hk].
    rewrite (Hkeyed _ _ Hk). eapply map_disjoint_Some_r; eauto. }
  specialize (H3 Hacc3' Hdisj2 Hkeyed2 eq_refl
                (NoDup_ids_Object_values (locals m) Hkeyed) Hfresh0).
  exists m1, m2. eexists. split; [exact H1|]. split; [exact H2|].
  split; [exact H3|]. simpl.
  rewrite (entries_Object_values (locals m) Hkeyed).
  rewrite (cleared_no_timer m2 Hone2).
  repeat split; assumption.
Qed.

End TimerAndSnapshot.

(** ** More on strokes *)

Section Strokes.
Context `{HotkCore} `{UserCode}.

(** A call of [fire] that returns has recorded its hotkey as the last
    one. *)
Lemma fire_returned (now : Z) (this : HotKey) (w w' : World) :
  fire now this w = (Normal tt, w') -> lastHotKey w' = Some this.
Proof.
  intros Hfire.
  destruct (match _stroke this with Single => true | Double => false end
            || (awaiting w this
                && number_le (now - lastFire w) (_strokeTimeout this)))
    eqn:Hcond.
  - destruct (fire_fires now this w Hcond) as (r & w1 & Hrun & _ & _ & Hlast).
    rewrite Hfire in Hrun. injection Hrun as <- <-. apply Hlast. reflexivity.
  - rewrite (fire_waits now this w Hcond) in Hfire.
    injection Hfire as <-. reflexivity.
Qed.

(** X15. A press of any other hotkey that returns cancels a pending
    first stroke: the next press of the Double-stroke hotkey [D] does not
    fire, however soon it comes, and is a first stroke again. *)
Theorem other_hotkey_cancels_pending
    (now later : Z) (D E : HotKey) (w w1 : World) :
  _stroke D = Double ->
  same_object E D = false ->
  fire now E w = (Normal tt, w1) ->
  fire later D w1
  = (Normal tt, set_lastHotKey (Some D) (set_lastFire later w1)).
Proof.
  intros HD Hother HE. apply fire_waits.
  unfold awaiting. rewrite HD, (fire_returned now E w w1 HE), Hother.
  reflexivity.
Qed.

(** X16. A double stroke that fired is used up: with a finite stroke
    timeout [T], the press after the firing one does not fire (at any
    time [later] with [T < later + 8640000000000000], so at any time of
    the present era for any timeout below the sentinel's magnitude) and
    is the first stroke of a new pair. *)
Theorem fired_stroke_is_consumed
    (now later T : Z) (D : HotKey) (w w' : World) :
  _stroke D = Double ->
  _strokeTimeout D = Fin T ->
  awaiting w D = true ->
  number_le (now - lastFire w) (Fin T) = true ->
  fire now D w = (Normal tt, w') ->
  T < later + 8640000000000000 ->
  fired w' = fired w ++ [_action D]
  /\ fire later D w'
     = (Normal tt, set_lastHotKey (Some D) (set_lastFire later w')).
Proof.
  intros HD HT Hw Hle Hfire Hlater.
  destruct (fire_fires now D w) as (r & w1 & Hrun & Hfired & Hnever & _).
  { rewrite HD, Hw, HT, Hle. reflexivity. }
  rewrite Hfire in Hrun. injection Hrun as <- <-.
  split; [exact Hfired|]. apply fire_waits.
  rewrite HD, HT, Hnever. simpl.
  apply andb_false_intro2. unfold never. lia.
Qed.

(** X17. Stroke timeouts that are not finite.  With [Infinity] a
    Double-stroke hotkey that is the last hotkey fires at every press: the
    call is [firing D w], so the action is run once more on the manager
    and is once more on record; and the hotkey stays the last hotkey when
    the call returns, so it goes on firing.  With [NaN] or [-Infinity] it
    never fires, in any state. *)
Theorem non_finite_stroke_timeouts (now : Z) (D : HotKey) (w : World) :
  _stroke D = Double ->
  (_strokeTimeout D = PosInfinity ->
   awaiting w D = true ->
   fire now D w = firing D w
   /\ fired (firing D w).2 = fired w ++ [_action D]
   /\ ((firing D w).1 = Normal tt -> awaiting (firing D w).2 D = true))
  /\ (_strokeTimeout D = NaN \/ _strokeTimeout D = NegInfinity ->
      fire now D w
      = (Normal tt, set_lastHotKey (Some D) (set_lastFire now w))).
Proof.
  intros HD. split.
  - intros HT Hw.
    destruct (firing_frame D w) as (Hfired & _ & Hlast & _).
    split; [|split; [exact Hfired|]].
    + apply fire_firing. rewrite HD, Hw, HT. reflexivity.
    + intros Hr. unfold awaiting. rewrite (Hlast Hr).
      unfold same_object. apply Nat.eqb_refl.
  - intros HT. apply fire_waits. rewrite HD.
    destruct HT as [-> | ->]; simpl; apply andb_false_r.
Qed.

(** X18. When the action of a firing hotkey throws, [fire] throws the
    same error and stops there: the manager is as the callback left it
    (neither the children's context is entered nor the root recovered),
    the hotkey is not recorded as the last one, and the timestamp has
    already been reset. *)
Theorem throwing_action_stops_fire
    (now : Z) (this : HotKey) (k : nat) (e : string) (m' : Manager)
    (w : World) :
  match _stroke this with Single => true | Double => false end
  || (awaiting w this && number_le (now - lastFire w) (_strokeTimeout this))
  = true ->
  _action this = Callback k ->
  callback k (mgr w) = (Thrown e, m') ->
  fire now this w
  = (Thrown e,
     {| mgr := m'; lastHotKey := lastHotKey w; lastFire := never;
        fired := fired w ++ [Callback k] |}).
Proof.
  intros Hcond Hact Hthrow. unfold fire, awaiting in *. run.
  rewrite Hcond. simpl. rewrite Hact. unfold call_action. run.
  unfold lift. simpl. rewrite Hthrow. reflexivity.
Qed.

End Strokes.

(** ** Dispatch in a descended context *)

Section DescendedDispatch.
Context `{HotkCore} `{UserCode}.

(** X19. After a descent that the core accepted, from consistent scopes
    and to children with distinct identities free of globals, the
    children are the only local hotkeys that answer: a Pressed event for
    a child is the child's [fire()], a Pressed event for a global is
    still the global's [fire()], and a Pressed event with any other
    identity, such as that of a hotkey of the root context, is dropped. *)
Theorem descended_context_dispatch
    (children : list HotKey) (timeout : number) (w : World) (now : Z) :
  accepted (native_log (mgr w))
    (unregister_calls (Object_values (locals (mgr w)))
     ++ register_calls children) ->
  scopes_disjoint (mgr w) ->
  locals_keyed (mgr w) ->
  NoDup (id_of <$> children) ->
  (forall c, c ∈ children -> globals (mgr w) !! id_of c = None) ->
  let w' := finish (lift (withSnapshot children timeout) w) in
  (forall c, c ∈ children ->
     handleEvent now (mkEvent (id_of c) Pressed) w' = fire now c w')
  /\ (forall k g, globals (mgr w) !! k = Some g ->
        handleEvent now (mkEvent k Pressed) w' = fire now g w')
  /\ (forall k, globals (mgr w) !! k = None ->
        (forall c, c ∈ children -> id_of c <> k) ->
        handleEvent now (mkEvent k Pressed) w' = (Normal tt, w')).
Proof.
  intros Hacc Hdisj Hkeyed Hnd Hfresh w'.
  pose proof (withSnapshot_accepted children timeout (mgr w)
                Hacc Hdisj Hkeyed Hnd Hfresh) as Hrun.
  match type of Hrun with _ = (_, scheduled timeout ?b) =>
    destruct (scheduled_fields timeout b) as (Hl & Hg & _ & _) end.
  simpl in Hl, Hg.
  assert (Hw' : mgr w' = (withSnapshot children timeout (mgr w)).2).
  { unfold w', finish, lift.
    destruct (withSnapshot children timeout (mgr w)). reflexivity. }
  rewrite Hrun in Hw'. simpl in Hw'.
  split; [|split].
  - intros c Hc. unfold handleEvent. run. rewrite Hw', Hg, Hl.
    rewrite (Hfresh c Hc).
    rewrite (proj2 (lookup_entries children (id_of c) c Hnd)
               (conj Hc eq_refl)).
    reflexivity.
  - intros k g Hk. unfold handleEvent. run. rewrite Hw', Hg, Hk.
    reflexivity.
  - intros k Hk Hnone. unfold handleEvent. run. rewrite Hw', Hg, Hl, Hk.
    destruct (list_to_map (entries children) !! k) as [c|] eqn:Hc;
      [|reflexivity].
    apply (lookup_entries children k c Hnd) in Hc as [Hin Hid].
    destruct (Hnone c Hin Hid).
Qed.

End DescendedDispatch.

(** ** The further properties on the examples *)

Lemma one_timer_descended : one_timer descended_manager.
Proof. right. exists 0%nat, (Fin 1000). split; vm_compute; reflexivity. Qed.

Lemma register_installs_witness :
  let r := name_sum "KeyA" in
  locals initial_manager !! id_of (H := key_only_core) altA = None
  /\ globals initial_manager !! id_of (H := key_only_core) altA = None
  /\ innerRegister (HotkCore := key_only_core) (native_log initial_manager)
       (mods altA) (code altA) = mkResult true r
  /\ id_of (H := key_only_core) altA <> r
  /\ exists m',
       register (H := key_only_core) altA false initial_manager
       = (Normal tt, m')
       /\ locals m' !! r = Some altA
       /\ globals m' = globals initial_manager
       /\ (forall k, k <> r ->
             globals m' !! k = globals initial_manager !! k
             /\ locals m' !! k = locals initial_manager !! k)
       /\ scheduling m' = scheduling initial_manager
       /\ native_log m' = [NRegister (mods altA) (code altA)].
Proof.
  intros r.
  split; [reflexivity|]. split; [reflexivity|]. split; [reflexivity|].
  split; [vm_compute; discriminate|].
  exact (@register_installs key_only_core altA false initial_manager r
           eq_refl eq_refl eq_refl).
Defined.

Lemma registered_hotkey_receives_events_witness :
  let r := id_of (H := willing_core) ctrlA in
  let w' := finish (lift (register (H := willing_core) ctrlA false)
                      initial_world) in
  locals (mgr initial_world) !! r = None
  /\ globals (mgr initial_world) !! r = None
  /\ innerRegister (HotkCore := willing_core)
       (native_log (mgr initial_world)) (mods ctrlA) (code ctrlA)
     = mkResult true r
  /\ handleEvent (H := willing_core) (H0 := quiet_code) 5000
       (mkEvent r Pressed) w'
     = fire (H := willing_core) (H0 := quiet_code) 5000 ctrlA w'
  /\ handleEvent (H := willing_core) (H0 := quiet_code) 5000
       (mkEvent r Released) w' = (Normal tt, w').
Proof.
  intros r w'.
  split; [reflexivity|]. split; [reflexivity|]. split; [reflexivity|].
  exact (@registered_hotkey_receives_events willing_core quiet_code
           ctrlA false initial_world r 5000
           eq_refl eq_refl eq_refl (fun _ => eq_refl)).
Defined.

(** [ctrlA] is registered; unregistering another object for the same
    combination silences it. *)
Lemma unregister_silences_identity_witness :
  let w := finish (lift (register (H := willing_core) ctrlA false)
                     initial_world) in
  let w' := finish (lift (unregister (H := willing_core) ctrlA_again) w) in
  locals (mgr w) !! id_of (H := willing_core) ctrlA = Some ctrlA
  /\ same_object ctrlA_again ctrlA = false
  /\ locals (mgr w') = delete (id_of (H := willing_core) ctrlA) (locals (mgr w))
  /\ handleEvent (H := willing_core) (H0 := quiet_code) 5000
       (pressed (H := willing_core) ctrlA) w' = (Normal tt, w').
Proof.
  intros w w'.
  destruct (@unregister_silences_identity willing_core quiet_code
              ctrlA_again w 5000 (pressed (H := willing_core) ctrlA))
    as (_ & _ & Hok).
  simpl in Hok. destruct Hok as (_ & Hl & Hdrop).
  split; [vm_compute; reflexivity|]. split; [reflexivity|].
  split; [exact Hl|]. exact (Hdrop eq_refl).
Defined.

Lemma register_then_unregister_witness :
  locals rooted_manager !! id_of (H := willing_core) keyB = None
  /\ globals rooted_manager !! id_of (H := willing_core) keyB = None
  /\ accepted (H := willing_core) (native_log rooted_manager)
       (register_calls [keyB] ++ unregister_calls [keyB])
  /\ exists m',
       (register (H := willing_core) keyB true >>>
        unregister (H := willing_core) keyB) rooted_manager
       = (Normal tt, m')
       /\ globals m' = globals rooted_manager
       /\ locals m' = locals rooted_manager
       /\ scheduling m' = scheduling rooted_manager
       /\ native_log m'
          = native_log rooted_manager
            ++ register_calls [keyB] ++ unregister_calls [keyB].
Proof.
  assert (Hacc : accepted (H := willing_core) (native_log rooted_manager)
                   (register_calls [keyB] ++ unregister_calls [keyB])).
  { vm_compute. repeat split. }
  split; [vm_compute; reflexivity|]. split; [vm_compute; reflexivity|].
  split; [exact Hacc|].
  apply (@register_then_unregister willing_core keyB true rooted_manager);
    [vm_compute; reflexivity | vm_compute; reflexivity | exact Hacc].
Defined.

Lemma recovery_whatever_the_core_witness :
  let result := recoverRoot (H := once_core) descended_manager in
  root descended_manager = Some [ctrlA_with keyB]
  /\ globals result.2 ⊆ globals descended_manager
  /\ (forall h, timeoutRecoverRoot descended_manager = Some h ->
        h ∉ (timers result.2).*1)
  /\ result.1 = Normal tt
  /\ root result.2 = None
  /\ timeoutRecoverRoot result.2 = None.
Proof.
  intros result.
  assert (Hroot : root descended_manager = Some [ctrlA_with keyB])
    by (vm_compute; reflexivity).
  destruct (@recovery_whatever_the_core once_core descended_manager
              [ctrlA_with keyB] Hroot) as (Hg & Hgone & Hend).
  assert (Hret : result.1 = Normal tt) by (vm_compute; reflexivity).
  fold result in Hg, Hgone, Hend. rewrite Hret in Hend.
  destruct Hend as [Hr Ht].
  split; [exact Hroot|]. split; [exact Hg|]. split; [exact Hgone|].
  split; [exact Hret|]. split; assumption.
Defined.

Lemma timer_stays_paired_witness :
  timer_paired descended_manager
  /\ (0%nat ∈ (timers descended_manager).*1)
  /\ exists snapshot,
       root descended_manager = Some snapshot
       /\ timer_expires (H := willing_core) 0 descended_manager
          = recoverRoot (H := willing_core)
              (set_timers [] (next_timer descended_manager)
                 descended_manager)
       /\ timers (finish (timer_expires (H := willing_core) 0
                            descended_manager)) = [].
Proof.
  destruct (@timer_stays_paired willing_core)
    as (Hstart & Hreg & _ & _ & Hdescend & _ & Hexpiry).
  pose proof (Hreg escape_global true initial_manager Hstart) as H1.
  pose proof (Hreg (ctrlA_with keyB) false _ H1) as H2.
  pose proof (Hdescend [keyB; keyZ] (Fin 1000) _ H2) as H3.
  assert (Hin : 0%nat ∈ (timers descended_manager).*1).
  { vm_compute. apply list_elem_of_here. }
  split; [exact H3|]. split; [exact Hin|].
  exact (Hexpiry descended_manager 0%nat H3 Hin).
Defined.

Lemma cancelled_timer_is_inert_witness :
  let recovered := finish (recoverRoot (H := willing_core)
                             descended_manager) in
  let deeper := finish (withSnapshot (H := willing_core) [keyZ] (Fin 500)
                          descended_manager) in
  one_timer descended_manager
  /\ timers descended_manager = [(0%nat, Fin 1000)]
  /\ root descended_manager = Some [ctrlA_with keyB]
  /\ timer_expires (H := willing_core) 0 recovered = (Normal tt, recovered)
  /\ 0%nat <> next_timer descended_manager
  /\ timer_expires (H := willing_core) 0 deeper = (Normal tt, deeper).
Proof.
  intros recovered deeper.
  destruct (@cancelled_timer_is_inert willing_core descended_manager 0%nat
              one_timer_descended) as [Hrec Hdeep].
  assert (Hne : 0%nat <> next_timer descended_manager)
    by (vm_compute; discriminate).
  split; [exact one_timer_descended|]. split; [vm_compute; reflexivity|].
  split; [vm_compute; reflexivity|].
  split; [exact (Hrec [ctrlA_with keyB] eq_refl)|].
  split; [exact Hne|]. exact (Hdeep [keyZ] (Fin 500) Hne).
Defined.

Lemma nested_descent_recovers_root_witness :
  accepted (H := willing_core) (native_log rooted_manager)
    (nested_calls (H := willing_core) (locals rooted_manager) [keyB] [keyZ])
  /\ scopes_disjoint rooted_manager
  /\ locals_keyed (H := willing_core) rooted_manager
  /\ one_timer rooted_manager
  /\ root rooted_manager = None
  /\ exists m1 m2 m3,
       withSnapshot (H := willing_core) [keyB] (Fin 1000) rooted_manager
       = (Normal tt, m1)
       /\ withSnapshot (H := willing_core) [keyZ] (Fin 500) m1
          = (Normal tt, m2)
       /\ recoverRoot (H := willing_core) m2 = (Normal tt, m3)
       /\ locals m1 = list_to_map (entries (H := willing_core) [keyB])
       /\ locals m2 = list_to_map (entries (H := willing_core) [keyZ])
       /\ root m2 = Some (Object_values (locals rooted_manager))
       /\ locals m3 = locals rooted_manager
       /\ globals m3 = globals rooted_manager
       /\ root m3 = None
       /\ timers m3 = [].
Proof.
  destruct rooted_manager_consistent as [Hd Hk].
  assert (Hone : one_timer rooted_manager) by (left; reflexivity).
  pose proof (accepts_every_call_accepted (H := willing_core)
                (native_log rooted_manager)
                (nested_calls (H := willing_core) (locals rooted_manager)
                   [keyB] [keyZ])
                willing_core_accepts) as Hacc.
  assert (Hnd1 : NoDup (id_of (H := willing_core) <$> [keyB])).
  { apply (bool_decide_unpack _). vm_compute. reflexivity. }
  assert (Hnd2 : NoDup (id_of (H := willing_core) <$> [keyZ])).
  { apply (bool_decide_unpack _). vm_compute. reflexivity. }
  assert (Hf1 : forall c, c ∈ [keyB] ->
            globals rooted_manager !! id_of (H := willing_core) c = None).
  { intros c Hc. each_member Hc. }
  assert (Hf2 : forall c, c ∈ [keyZ] ->
            globals rooted_manager !! id_of (H := willing_core) c = None).
  { intros c Hc. each_member Hc. }
  split; [exact Hacc|]. split; [exact Hd|]. split; [exact Hk|].
  split; [exact Hone|]. split; [reflexivity|].
  exact (@nested_descent_recovers_root willing_core [keyB] [keyZ]
           (Fin 1000) (Fin 500) rooted_manager
           Hacc Hd Hk Hone eq_refl Hnd1 Hf1 Hnd2 Hf2).
Defined.

Lemma other_hotkey_cancels_pending_witness :
  let pending :=
    finish (fire (H := willing_core) (H0 := quiet_code) 5000 ctrlA_double
              initial_world) in
  let w1 :=
    finish (fire (H := willing_core) (H0 := quiet_code) 5100 keyB_double
              pending) in
  _stroke ctrlA_double = Double
  /\ awaiting pending ctrlA_double = true
  /\ same_object keyB_double ctrlA_double = false
  /\ fire (H := willing_core) (H0 := quiet_code) 5100 keyB_double pending
     = (Normal tt, w1)
  /\ number_le (5200 - 5000) (_strokeTimeout ctrlA_double) = true
  /\ fire (H := willing_core) (H0 := quiet_code) 5200 ctrlA_double w1
     = (Normal tt,
        set_lastHotKey (Some ctrlA_double) (set_lastFire 5200 w1)).
Proof.
  intros pending w1.
  assert (HE : fire (H := willing_core) (H0 := quiet_code) 5100 keyB_double
                 pending = (Normal tt, w1)) by reflexivity.
  split; [reflexivity|]. split; [reflexivity|]. split; [reflexivity|].
  split; [exact HE|]. split; [reflexivity|].
  exact (@other_hotkey_cancels_pending willing_core quiet_code 5100 5200
           ctrlA_double keyB_double pending w1 eq_refl eq_refl HE).
Defined.

Lemma fired_stroke_is_consumed_witness :
  let pending :=
    finish (fire (H := willing_core) (H0 := quiet_code) 5000 ctrlA_double
              initial_world) in
  let w' :=
    finish (fire (H := willing_core) (H0 := quiet_code) 5500 ctrlA_double
              pending) in
  _stroke ctrlA_double = Double
  /\ _strokeTimeout ctrlA_double = Fin 1000
  /\ awaiting pending ctrlA_double = true
  /\ number_le (5500 - lastFire pending) (Fin 1000) = true
  /\ fire (H := willing_core) (H0 := quiet_code) 5500 ctrlA_double pending
     = (Normal tt, w')
  /\ 1000 < 5600 + 8640000000000000
  /\ fired w' = [Noop]
  /\ fire (H := willing_core) (H0 := quiet_code) 5600 ctrlA_double w'
     = (Normal tt,
        set_lastHotKey (Some ctrlA_double) (set_lastFire 5600 w')).
Proof.
  intros pending w'.
  assert (Hfire : fire (H := willing_core) (H0 := quiet_code) 5500
                    ctrlA_double pending = (Normal tt, w')) by reflexivity.
  assert (Hlt : 1000 < 5600 + 8640000000000000) by lia.
  destruct (@fired_stroke_is_consumed willing_core quiet_code 5500 5600 1000
              ctrlA_double pending w' eq_refl eq_refl eq_refl eq_refl
              Hfire Hlt) as [Hfired Hnext].
  split; [reflexivity|]. split; [reflexivity|]. split; [reflexivity|].
  split; [reflexivity|]. split; [exact Hfire|]. split; [exact Hlt|].
  split; [exact Hfired|]. exact Hnext.
Defined.

Lemma non_finite_stroke_timeouts_witness :
  let D := ctrlA_patient_acting in
  let fired_once :=
    finish (fire (H := willing_core) (H0 := busy_code) 5000 D
              (finish (fire (H := willing_core) (H0 := busy_code) 1000
                         D initial_world))) in
  let again := @firing willing_core busy_code D fired_once in
  let waiting :=
    finish (fire (H := willing_core) (H0 := quiet_code) 1000 ctrlA_never
              initial_world) in
  _stroke D = Double
  /\ _strokeTimeout D = PosInfinity
  /\ _action D = Callback 1
  /\ awaiting fired_once D = true
  /\ fired fired_once = [Callback 1]
  /\ native_log (mgr fired_once) = [NUnregister [] "KeyZ"]
  /\ fire (H := willing_core) (H0 := busy_code) 900000 D fired_once = again
  /\ fired again.2 = [Callback 1; Callback 1]
  /\ native_log (mgr again.2) = [NUnregister [] "KeyZ"; NUnregister [] "KeyZ"]
  /\ again.1 = Normal tt
  /\ awaiting again.2 D = true
  /\ _stroke ctrlA_never = Double
  /\ _strokeTimeout ctrlA_never = NaN
  /\ awaiting waiting ctrlA_never = true
  /\ fire (H := willing_core) (H0 := quiet_code) 1000 ctrlA_never waiting
     = (Normal tt,
        set_lastHotKey (Some ctrlA_never) (set_lastFire 1000 waiting)).
Proof.
  intros D fired_once again waiting.
  destruct (@non_finite_stroke_timeouts willing_core busy_code 900000
              D fired_once eq_refl) as [Hinf _].
  destruct (@non_finite_stroke_timeouts willing_core quiet_code 1000
              ctrlA_never waiting eq_refl) as [_ Hnan].
  destruct (Hinf eq_refl eq_refl) as (Hfire & Hfired & Hlast).
  assert (Hret : again.1 = Normal tt) by (vm_compute; reflexivity).
  split; [reflexivity|]. split; [reflexivity|]. split; [reflexivity|].
  split; [reflexivity|]. split; [reflexivity|].
  split; [vm_compute; reflexivity|].
  split; [exact Hfire|]. split; [exact Hfired|].
  split; [vm_compute; reflexivity|].
  split; [exact Hret|]. split; [exact (Hlast Hret)|].
  split; [reflexivity|]. split; [reflexivity|]. split; [reflexivity|].
  exact (Hnan (or_introl eq_refl)).
Defined.

Lemma throwing_action_stops_fire_witness :
  let w := set_mgr descended_manager initial_world in
  _stroke ctrlA_acting = Single
  /\ _action ctrlA_acting = Callback 1
  /\ callback (UserCode := failing_code) 1 (mgr w)
     = (Thrown "action failed", descended_manager)
  /\ fire (H := willing_core) (H0 := failing_code) 5000 ctrlA_acting w
     = (Thrown "action failed",
        {| mgr := descended_manager; lastHotKey := None; lastFire := never;
           fired := [Callback 1] |}).
Proof.
  intros w.
  split; [reflexivity|]. split; [reflexivity|]. split; [reflexivity|].
  exact (@throwing_action_stops_fire willing_core failing_code 5000
           ctrlA_acting 1 "action failed" descended_manager w
           eq_refl eq_refl eq_refl).
Defined.

Lemma descended_context_dispatch_witness :
  let w := set_mgr rooted_manager initial_world in
  let w' := finish (lift (withSnapshot (H := willing_core) [keyB; keyZ]
                            (Fin 1000)) w) in
  locals (mgr w) !! id_of (H := willing_core) (ctrlA_with keyB)
  = Some (ctrlA_with keyB)
  /\ globals (mgr w) !! id_of (H := willing_core) escape_global
     = Some escape_global
  /\ handleEvent (H := willing_core) (H0 := quiet_code) 5000
       (pressed (H := willing_core) keyZ) w'
     = fire (H := willing_core) (H0 := quiet_code) 5000 keyZ w'
  /\ handleEvent (H := willing_core) (H0 := quiet_code) 5000
       (pressed (H := willing_core) escape_global) w'
     = fire (H := willing_core) (H0 := quiet_code) 5000 escape_global w'
  /\ handleEvent (H := willing_core) (H0 := quiet_code) 5000
       (pressed (H := willing_core) (ctrlA_with keyB)) w'
     = (Normal tt, w').
Proof.
  intros w w'.
  destruct rooted_manager_consistent as [Hd Hk].
  pose proof (accepts_every_call_accepted (H := willing_core)
                (native_log rooted_manager)
                (unregister_calls (Object_values (locals rooted_manager))
                 ++ register_calls [keyB; keyZ])
                willing_core_accepts) as Hacc.
  assert (Hnd : NoDup (id_of (H := willing_core) <$> [keyB; keyZ])).
  { apply (bool_decide_unpack _). vm_compute. reflexivity. }
  assert (Hfresh : forall c, c ∈ [keyB; keyZ] ->
            globals rooted_manager !! id_of (H := willing_core) c = None).
  { intros c Hc. each_member Hc. }
  destruct (@descended_context_dispatch willing_core quiet_code
              [keyB; keyZ] (Fin 1000) w 5000 Hacc Hd Hk Hnd Hfresh)
    as (Hchild & Hglobal & Hother).
  assert (Hg : globals (mgr w) !! id_of (H := willing_core) escape_global
               = Some escape_global) by (vm_compute; reflexivity).
  split; [vm_compute; reflexivity|]. split; [exact Hg|].
  split.
  { apply (Hchild keyZ). apply list_elem_of_further, list_elem_of_here. }
  split; [exact (Hglobal _ _ Hg)|].
  apply (Hother (id_of (H := willing_core) (ctrlA_with keyB))).
  - vm_compute. reflexivity.
  - intros c Hc.
    repeat (apply elem_of_cons in Hc as [->|Hc];
            [vm_compute; discriminate|]).
    apply not_elem_of_nil in Hc. destruct Hc.
Defined.
